(** * The AI trip planner edge function, embedded in Rocq

    A shallow embedding of [supabase/functions/ai-trip-planner/index.ts]:
    the input validator, the sanitizer, the JSON extractor and normalizer,
    and the request handler [serve], together with the part of the
    JavaScript runtime they rely on (UTF-16 strings, regular expressions,
    binary64 numbers, [JSON.parse], [Date]) and the part of the Supabase
    store the handler talks to (the [trips] table and its row-level
    policies, from the migrations). *)

From Stdlib Require Import String Ascii.
From Stdlib Require Import List NArith ZArith Bool Lia.
From Stdlib Require Import PrimFloat SpecFloat FloatOps.
Import ListNotations.

(* ================================================================== *)
(** * 1. Strings *)
(* ================================================================== *)

(** A JavaScript string is a sequence of UTF-16 code units. *)
Definition jsstring := list N.

(** [lit "abc"] is the string whose code units are the bytes of an
    ASCII literal. *)
Definition lit (s : string) : jsstring :=
  map N_of_ascii (list_ascii_of_string s).

(** [qlit] is [lit] with every apostrophe read as a double quote, so
    that JSON texts can be written down: [qlit "{'a':1}"]. *)
Definition qlit (s : string) : jsstring :=
  map (fun c => if N.eqb c 39 then 34%N else c) (lit s).

Definition cu (a : ascii) : N := N_of_ascii a.

Fixpoint str_eqb (a b : jsstring) : bool :=
  match a, b with
  | [], [] => true
  | x :: a', y :: b' => N.eqb x y && str_eqb a' b'
  | _, _ => false
  end.

(** Membership of a code unit in a set given by a literal. *)
Definition one_of (set : jsstring) (c : N) : bool := existsb (N.eqb c) set.

Definition in_range (lo hi c : N) : bool := N.leb lo c && N.leb c hi.

(** [\d] *)
Definition is_digit (c : N) : bool := in_range 48 57 c.

(** [\s]: WhiteSpace and LineTerminator code units; [trim] strips the
    same set. *)
Definition is_space (c : N) : bool :=
  in_range 9 13 c || one_of [32; 160; 5760; 8232; 8233; 8239; 8287; 12288; 65279]%N c
  || in_range 8192 8202 c.

(** [String.prototype.slice(start, end)] for integral arguments. *)
Definition rel_index (len i : Z) : Z :=
  if (i <? 0)%Z then Z.max (len + i) 0 else Z.min i len.

Definition String_slice (s : jsstring) (start fin : Z) : jsstring :=
  let len := Z.of_nat (length s) in
  let from := rel_index len start in
  let to := rel_index len fin in
  firstn (Z.to_nat (to - from)) (skipn (Z.to_nat from) s).

Fixpoint drop_while (p : N -> bool) (s : jsstring) : jsstring :=
  match s with
  | c :: s' => if p c then drop_while p s' else s
  | [] => []
  end.

(** [String.prototype.trim] *)
Definition String_trim (s : jsstring) : jsstring :=
  rev (drop_while is_space (rev (drop_while is_space s))).

Fixpoint is_prefix (p s : jsstring) : bool :=
  match p, s with
  | [], _ => true
  | a :: p', b :: s' => N.eqb a b && is_prefix p' s'
  | _ :: _, [] => false
  end.

(** [String.prototype.indexOf(needle)]: the least index at which
    [needle] occurs, or [None] for -1. *)
Fixpoint String_indexOf (needle s : jsstring) : option nat :=
  if is_prefix needle s then Some 0
  else match s with
       | [] => None
       | _ :: s' => option_map S (String_indexOf needle s')
       end.

(** [String.prototype.lastIndexOf(needle)] *)
Fixpoint String_lastIndexOf (needle s : jsstring) : option nat :=
  match s with
  | [] => if is_prefix needle s then Some 0 else None
  | _ :: s' =>
      match String_lastIndexOf needle s' with
      | Some i => Some (S i)
      | None => if is_prefix needle s then Some 0 else None
      end
  end.

(** [String.prototype.includes(needle)] *)
Definition String_includes (needle s : jsstring) : bool :=
  match String_indexOf needle s with Some _ => true | None => false end.

(* ================================================================== *)
(** * 2. Regular expressions *)
(* ================================================================== *)

(** The fragment of the regular expression language the source uses,
    with the backtracking semantics of the runtime: quantifiers are
    greedy, a lookahead is atomic, and capture groups record the text
    of their last match. *)
Inductive regex :=
| Eps
| Cls (p : N -> bool)
| Seq (r1 r2 : regex)
| Star (r : regex)
| Opt (r : regex)
| Group (i : nat) (r : regex)
| Ahead (r : regex)
| Eol.

Definition Chr (a : ascii) : regex := Cls (N.eqb (cu a)).
Definition Plus (r : regex) : regex := Seq r (Star r).

Fixpoint Rep (n : nat) (r : regex) : regex :=
  match n with
  | O => Eps
  | S n' => Seq r (Rep n' r)
  end.

Fixpoint Word (w : list regex) : regex :=
  match w with
  | [] => Eps
  | r :: w' => Seq r (Word w')
  end.

Definition captures := list (nat * jsstring).

Fixpoint capture (i : nat) (c : captures) : jsstring :=
  match c with
  | [] => []
  | (j, w) :: c' => if Nat.eqb i j then w else capture i c'
  end.

(** The text consumed between the input [s] and its suffix [s']. *)
Definition consumed (s s' : jsstring) : jsstring :=
  firstn (length s - length s') s.

Definition kont := jsstring -> captures -> option (jsstring * captures).

(** The loop of a greedy star over the matcher [m] of its body: an
    iteration that consumes nothing is rejected, so the length of the
    input bounds the number of iterations. *)
Fixpoint star_loop (m : jsstring -> captures -> kont -> option (jsstring * captures))
  (n : nat) (s : jsstring) (c : captures) (k : kont) : option (jsstring * captures) :=
  match n with
  | O => k s c
  | S n' =>
      match m s c (fun s1 c1 =>
               if Nat.ltb (List.length s1) (List.length s)
               then star_loop m n' s1 c1 k else None) with
      | Some res => Some res
      | None => k s c
      end
  end.

(** [exec r s c k] matches [r] at the head of [s] and passes what is
    left to the continuation [k]; when [k] fails, the next alternative
    of [r] is tried, in the order of the runtime. *)
Fixpoint exec (r : regex) : jsstring -> captures -> kont -> option (jsstring * captures) :=
  match r with
  | Eps => fun s c k => k s c
  | Cls p => fun s c k =>
      match s with
      | x :: s' => if p x then k s' c else None
      | [] => None
      end
  | Seq r1 r2 => fun s c k => exec r1 s c (fun s1 c1 => exec r2 s1 c1 k)
  | Star r1 => fun s c k => star_loop (exec r1) (List.length s) s c k
  | Opt r1 => fun s c k =>
      match exec r1 s c k with
      | Some res => Some res
      | None => k s c
      end
  | Group i r1 => fun s c k =>
      exec r1 s c (fun s1 c1 => k s1 ((i, consumed s s1) :: c1))
  | Ahead r1 => fun s c k =>
      match exec r1 s c (fun s1 c1 => Some (s1, c1)) with
      | Some (_, c1) => k s c1
      | None => None
      end
  | Eol => fun s c k =>
      match s with
      | [] => k s c
      | _ :: _ => None
      end
  end.

(** What [exec] computes, as a relation: [matches r s s'] when [r] can
    match at the head of [s] and leave [s']. *)
Inductive matches : regex -> jsstring -> jsstring -> Prop :=
| M_Eps s : matches Eps s s
| M_Cls (p : N -> bool) x s : p x = true -> matches (Cls p) (x :: s) s
| M_Seq r1 r2 s s1 s2 : matches r1 s s1 -> matches r2 s1 s2 -> matches (Seq r1 r2) s s2
| M_Star_stop r s : matches (Star r) s s
| M_Star_step r s s1 s2 :
    matches r s s1 -> matches (Star r) s1 s2 -> matches (Star r) s s2
| M_Opt_skip r s : matches (Opt r) s s
| M_Opt_take r s s1 : matches r s s1 -> matches (Opt r) s s1
| M_Group i r s s1 : matches r s s1 -> matches (Group i r) s s1
| M_Ahead r s s1 : matches r s s1 -> matches (Ahead r) s s
| M_Eol : matches Eol [] [].

(** A match of [r] at the head of [s]: the rest of the input and the
    captures. *)
Definition match_here (r : regex) (s : jsstring) : option (jsstring * captures) :=
  exec r s [] (fun s1 c1 => Some (s1, c1)).

(** [RegExp.prototype.test] for a pattern [/^r$/]: such a pattern can
    only match at index 0, up to the end of the input. *)
Definition test_whole (r : regex) (s : jsstring) : bool :=
  match match_here (Seq r Eol) s with Some _ => true | None => false end.

(** [String.prototype.replace] with a global pattern and a replacer
    function: the matches are found left to right, each search starting
    where the previous match ended (one code unit further after an empty
    match), and every match is replaced by [f matched captures]. *)
Fixpoint replace_fuel (n : nat) (r : regex) (f : jsstring -> captures -> jsstring)
  (s : jsstring) : jsstring :=
  match n with
  | O => s
  | S n' =>
      match match_here r s with
      | Some (rest, c) =>
          if Nat.ltb (length rest) (length s)
          then f (consumed s rest) c ++ replace_fuel n' r f rest
          else f [] c ++ match s with
                         | [] => []
                         | x :: s' => x :: replace_fuel n' r f s'
                         end
      | None =>
          match s with
          | [] => []
          | x :: s' => x :: replace_fuel n' r f s'
          end
      end
  end.

Definition replace_all (r : regex) (f : jsstring -> captures -> jsstring)
  (s : jsstring) : jsstring :=
  replace_fuel (S (length s)) r f s.

(* ================================================================== *)
(** * 3. The sanitizer *)
(* ================================================================== *)

(** [/[<>{}]/] *)
Definition dangerous : N -> bool := one_of (lit "<>{}").

(** [sanitizeString]: the callers pass a string, for which the
    [typeof] guard is never taken. *)
Definition sanitizeString (str : jsstring) (maxLength : Z) : jsstring :=
  replace_all (Cls dangerous) (fun _ _ => []) (String_slice str 0 maxLength).

(* ================================================================== *)
(** * 4. Numbers *)
(* ================================================================== *)

(** A JavaScript number is a binary64 float: the kernel's [float],
    whose operations are the IEEE 754 ones. The conversions between
    numbers and decimal texts are computed exactly over [Z]. *)
Definition number := float.
Bind Scope float_scope with number.

Fixpoint pow10 (n : nat) : Z :=
  match n with
  | O => 1
  | S n' => 10 * pow10 n'
  end.

Definition pow10Z (z : Z) : Z := pow10 (Z.to_nat z).

Fixpoint dec_digits (fuel : nat) (n : Z) (acc : jsstring) : jsstring :=
  match fuel with
  | O => acc
  | S fuel' =>
      let acc' := (48 + Z.to_N (n mod 10))%N :: acc in
      if (n <? 10)%Z then acc' else dec_digits fuel' (n / 10) acc'
  end.

(** The decimal digits of a natural number. *)
Definition Z_to_dec (n : Z) : jsstring :=
  dec_digits (S (Z.to_nat (Z.log2 n))) n [].

Fixpoint dec_value (ds : jsstring) (acc : Z) : Z :=
  match ds with
  | [] => acc
  | d :: ds' => dec_value ds' (10 * acc + (Z.of_N d - 48))
  end.

(** The number nearest to [m * 10^e10] (ties to even), with the sign
    [neg]; [m] is not negative. The two cut-offs only spare the
    computation of huge powers: from [10^400] on every value rounds to
    infinity, and every value below [10^-400] rounds to zero. *)
Definition decimal_to_number (neg : bool) (m e10 : Z) : number :=
  let digits10 := Z.of_nat (List.length (Z_to_dec m)) in
  if (m =? 0)%Z then SF2Prim (S754_zero neg)
  else if (400 <? e10)%Z then SF2Prim (S754_infinity neg)
  else if (digits10 + e10 <? -400)%Z then SF2Prim (S754_zero neg)
  else if (0 <=? e10)%Z then
    SF2Prim (binary_round_aux prec emax neg (m * pow10 (Z.to_nat e10)) 0 loc_Exact)
  else
    let d := pow10 (Z.to_nat (- e10)) in
    let k := Z.max 1074 (54 + Zdigits2 d - Zdigits2 m) in
    let q := (m * 2 ^ k / d)%Z in
    let r := (m * 2 ^ k mod d)%Z in
    let loc := if (r =? 0)%Z then loc_Exact else loc_Inexact (2 * r ?= d)%Z in
    SF2Prim (binary_round_aux prec emax neg q (- k) loc).

(** [a * 2^e2 * 10^e10] in units of [2^m2 * 10^m10], for [m2 <= e2]
    and [m10 <= e10]. *)
Definition scaled (a e2 e10 m2 m10 : Z) : Z :=
  (a * 2 ^ (e2 - m2) * pow10Z (e10 - m10))%Z.

(** [m * 2^e < 10^t] *)
Definition below_pow10 (m e t : Z) : bool :=
  let m2 := Z.min e 0 in
  let m10 := Z.min t 0 in
  (scaled m e 0 m2 m10 <? scaled 1 0 t m2 m10)%Z.

Fixpoint least_pow10 (fuel : nat) (m e t : Z) : Z :=
  match fuel with
  | O => t
  | S fuel' => if below_pow10 m e t then t else least_pow10 fuel' m e (t + 1)
  end.

(** The [n] of Number::toString: [10^(n-1) <= m * 2^e < 10^n]. *)
Definition decimal_point (m e : Z) : Z :=
  least_pow10 4 m e ((Zdigits2 m + e - 1) * 30103 / 100000 - 1).

(** The candidates [s] with [k] digits for the value [m * 2^e]: the
    integers next to [v / 10^(n-k)] whose decimal [s * 10^(n-k)] rounds
    to [v], each with its distance to [v]. *)
Definition digit_candidates (m e n k : Z) : list (Z * Z) :=
  let p := (n - k)%Z in
  let m2 := Z.min (e - 2) 0 in
  let m10 := Z.min p 0 in
  let boundary := (m =? 2 ^ 52)%Z && (-1074 <? e)%Z in
  let v := scaled (4 * m) (e - 2) 0 m2 m10 in
  let lo := scaled (if boundary then 4 * m - 1 else 4 * m - 2) (e - 2) 0 m2 m10 in
  let hi := scaled (4 * m + 2) (e - 2) 0 m2 m10 in
  let u := scaled 1 0 p m2 m10 in
  let s0 := (v / u)%Z in
  let inside x :=
    if Z.even m then (lo <=? x)%Z && (x <=? hi)%Z else (lo <? x)%Z && (x <? hi)%Z in
  filter (fun sd => (pow10Z (k - 1) <=? fst sd)%Z && (fst sd <=? pow10Z k)%Z
                    && inside (fst sd * u)%Z)
    [(s0, Z.abs (s0 * u - v)); (s0 + 1, Z.abs ((s0 + 1) * u - v))%Z].

Definition closest (cs : list (Z * Z)) : option Z :=
  match cs with
  | [] => None
  | [(s, _)] => Some s
  | (s1, d1) :: (s2, d2) :: _ =>
      if (d1 <? d2)%Z then Some s1
      else if (d2 <? d1)%Z then Some s2
      else if Z.even s1 then Some s1 else Some s2
  end.

Fixpoint shortest_digits (fuel : nat) (m e n k : Z) : Z * Z :=
  match fuel with
  | O => (m, k)
  | S fuel' =>
      match closest (digit_candidates m e n k) with
      | Some s => (s, k)
      | None => shortest_digits fuel' m e n (k + 1)
      end
  end.

Definition zeros (n : Z) : jsstring := repeat 48%N (Z.to_nat n).

(** Number::toString for a positive finite value [m * 2^e]. *)
Definition positive_to_string (m e : Z) : jsstring :=
  let n0 := decimal_point m e in
  let '(s0, k0) := shortest_digits 17 m e n0 1 in
  let '(s, k, n) := if (s0 =? pow10Z k0)%Z then (1%Z, 1%Z, (n0 + 1)%Z) else (s0, k0, n0) in
  let ds := Z_to_dec s in
  if (k <=? n)%Z && (n <=? 21)%Z then ds ++ zeros (n - k)
  else if (0 <? n)%Z && (n <=? 21)%Z then
    firstn (Z.to_nat n) ds ++ lit "." ++ skipn (Z.to_nat n) ds
  else if (-6 <? n)%Z && (n <=? 0)%Z then lit "0." ++ zeros (- n) ++ ds
  else
    let ex := (if (0 <=? n - 1)%Z then lit "+" else lit "-") ++ Z_to_dec (Z.abs (n - 1)) in
    match ds with
    | [d] => [d] ++ lit "e" ++ ex
    | d :: ds' => [d] ++ lit "." ++ ds' ++ lit "e" ++ ex
    | [] => []
    end.

(** Number::toString (radix 10). *)
Definition Number_toString (x : number) : jsstring :=
  match Prim2SF x with
  | S754_nan => lit "NaN"
  | S754_zero _ => lit "0"
  | S754_infinity false => lit "Infinity"
  | S754_infinity true => lit "-Infinity"
  | S754_finite false m e => positive_to_string (Zpos m) e
  | S754_finite true m e => lit "-" ++ positive_to_string (Zpos m) e
  end.

(** [Number.isInteger] *)
Definition Number_isInteger (x : number) : bool :=
  match Prim2SF x with
  | S754_zero _ => true
  | S754_finite _ m e => (0 <=? e)%Z || (Zpos m mod 2 ^ (- e) =? 0)%Z
  | _ => false
  end.

(** [Number.isFinite] *)
Definition Number_isFinite (x : number) : bool := is_finite x.

(** [Math.round]: the integer nearest to [x], halves rounded up. *)
Definition Math_round (x : number) : number :=
  match Prim2SF x with
  | S754_finite s m e =>
      if (0 <=? e)%Z then x
      else
        let sm := if s then Zneg m else Zpos m in
        let r := ((2 * sm + 2 ^ (- e)) / 2 ^ (1 - e))%Z in
        SF2Prim (binary_normalize prec emax r 0 s)
  | _ => x
  end.

(** The numeric literals of [Number(string)]: an optional sign and
    [Infinity] or a decimal literal, or an unsigned binary, octal or
    hexadecimal integer; surrounding white space is ignored, the empty
    string is [0], and any other text is [NaN]. *)
Fixpoint take_while (p : N -> bool) (s : jsstring) : jsstring * jsstring :=
  match s with
  | c :: s' =>
      if p c then let '(a, b) := take_while p s' in (c :: a, b) else ([], s)
  | [] => ([], [])
  end.

Definition exponent_part (s : jsstring) : option Z :=
  match s with
  | [] => Some 0%Z
  | c :: s1 =>
      if one_of (lit "eE") c then
        let '(neg, s2) :=
          match s1 with
          | d :: s2 => if N.eqb d (cu "-") then (true, s2)
                       else if N.eqb d (cu "+") then (false, s2) else (false, s1)
          | [] => (false, s1)
          end in
        match s2 with
        | [] => None
        | _ :: _ =>
            if forallb is_digit s2
            then Some (if neg then (- dec_value s2 0)%Z else dec_value s2 0)
            else None
        end
      else None
  end.

Definition unsigned_decimal (neg : bool) (s : jsstring) : number :=
  if str_eqb s (lit "Infinity") then SF2Prim (S754_infinity neg)
  else
    let '(ip, s1) := take_while is_digit s in
    let '(fp, s2) :=
      match s1 with
      | c :: s1' => if N.eqb c (cu ".") then take_while is_digit s1' else ([], s1)
      | [] => ([], s1)
      end in
    match ip ++ fp with
    | [] => nan
    | _ :: _ =>
        match exponent_part s2 with
        | Some ex => decimal_to_number neg (dec_value (ip ++ fp) 0) (ex - Z.of_nat (List.length fp))
        | None => nan
        end
    end.

Definition digit_of (c : N) : Z :=
  if is_digit c then (Z.of_N c - 48)%Z
  else if in_range 97 102 c then (Z.of_N c - 87)%Z
  else if in_range 65 70 c then (Z.of_N c - 55)%Z
  else 99%Z.

Definition radix_literal (radix : Z) (ds : jsstring) : number :=
  match ds with
  | [] => nan
  | _ :: _ =>
      if forallb (fun c => (digit_of c <? radix)%Z) ds
      then SF2Prim (binary_normalize prec emax
                      (fold_left (fun acc c => (radix * acc + digit_of c)%Z) ds 0%Z) 0 false)
      else nan
  end.

Definition StringToNumber (str : jsstring) : number :=
  match String_trim str with
  | [] => zero
  | c :: s1 =>
      if N.eqb c (cu "-") then unsigned_decimal true s1
      else if N.eqb c (cu "+") then unsigned_decimal false s1
      else
        match s1 with
        | x :: s2 =>
            if N.eqb c (cu "0") && one_of (lit "xX") x then radix_literal 16 s2
            else if N.eqb c (cu "0") && one_of (lit "oO") x then radix_literal 8 s2
            else if N.eqb c (cu "0") && one_of (lit "bB") x then radix_literal 2 s2
            else unsigned_decimal false (c :: s1)
        | [] => unsigned_decimal false (c :: s1)
        end
  end.

(* ================================================================== *)
(** * 5. Values, exceptions and JSON *)
(* ================================================================== *)

(** The values [JSON.parse] produces. An object keeps its members in
    the order of the text; when a key occurs twice the last occurrence
    is the property. *)
#[local] Unset Elimination Schemes.
Inductive json :=
| JNull
| JBool (b : bool)
| JNum (x : number)
| JStr (s : jsstring)
| JArr (l : list json)
| JObj (m : list (jsstring * json)).
#[local] Set Elimination Schemes.

(** A computation returns a value or throws an [Error] with a message. *)
Inductive result (A : Type) :=
| Ok (a : A)
| Throw (message : jsstring).

Arguments Ok {A} a.
Arguments Throw {A} message.

Definition bind {A B : Type} (r : result A) (f : A -> result B) : result B :=
  match r with
  | Ok a => f a
  | Throw m => Throw m
  end.

Notation "x <- r ;; k" := (bind r (fun x => k))
  (at level 61, r at next level, right associativity).

(** [try { body } catch (e) { handler(e.message) }] *)
Definition try_catch {A : Type} (body : result A) (handler : jsstring -> result A)
  : result A :=
  match body with
  | Ok a => Ok a
  | Throw m => handler m
  end.

(** The texts of the errors the runtime itself throws are its own; the
    embedding takes them as given. *)
Record Runtime := {
  (* the SyntaxError of JSON.parse on a text *)
  syntaxErrorMessage : jsstring -> jsstring;
  (* the TypeError of reading a property of null *)
  nullReadMessage : jsstring -> jsstring;
  (* the TypeError of converting an object with no callable toString
     or valueOf to a primitive *)
  toPrimitiveMessage : jsstring
}.

(** ** [JSON.parse] *)

Definition is_json_space (c : N) : bool := one_of [32; 9; 10; 13]%N c.

Definition skip_ws (s : jsstring) : jsstring := drop_while is_json_space s.

Definition is_hex (c : N) : bool :=
  is_digit c || in_range 97 102 c || in_range 65 70 c.

Definition simple_escape (c : N) : option N :=
  if N.eqb c 34 then Some 34%N
  else if N.eqb c 92 then Some 92%N
  else if N.eqb c 47 then Some 47%N
  else if N.eqb c (cu "b") then Some 8%N
  else if N.eqb c (cu "f") then Some 12%N
  else if N.eqb c (cu "n") then Some 10%N
  else if N.eqb c (cu "r") then Some 13%N
  else if N.eqb c (cu "t") then Some 9%N
  else None.

(** The characters of a string literal, after its opening quote. *)
Fixpoint parse_chars (s : jsstring) (acc : jsstring) : option (jsstring * jsstring) :=
  match s with
  | [] => None
  | c :: s1 =>
      if N.eqb c 34 then Some (rev acc, s1)
      else if N.eqb c 92 then
        match s1 with
        | [] => None
        | e :: s2 =>
            if N.eqb e (cu "u") then
              match s2 with
              | h1 :: h2 :: h3 :: h4 :: s3 =>
                  if forallb is_hex [h1; h2; h3; h4]
                  then parse_chars s3
                         (Z.to_N (fold_left (fun a h => (16 * a + digit_of h)%Z)
                                    [h1; h2; h3; h4] 0%Z) :: acc)
                  else None
              | _ => None
              end
            else
              match simple_escape e with
              | Some x => parse_chars s2 (x :: acc)
              | None => None
              end
        end
      else if N.ltb c 32 then None
      else parse_chars s1 (c :: acc)
  end.

(** The integer part of a number literal: [0], or digits that do not
    start with [0]. *)
Definition int_part (s : jsstring) : option (jsstring * jsstring) :=
  match s with
  | c :: s' =>
      if N.eqb c (cu "0") then Some ([c], s')
      else match take_while is_digit s with
           | ([], _) => None
           | (ip, s1) => Some (ip, s1)
           end
  | [] => None
  end.

(** The optional fraction: a point and at least one digit. *)
Definition frac_part (s : jsstring) : option (jsstring * jsstring) :=
  match s with
  | c :: s' =>
      if N.eqb c (cu ".") then
        match take_while is_digit s' with
        | ([], _) => None
        | (fp, s2) => Some (fp, s2)
        end
      else Some ([], s)
  | [] => Some ([], s)
  end.

(** The optional sign of an exponent. *)
Definition exp_sign (s : jsstring) : bool * jsstring :=
  match s with
  | d :: s' => if N.eqb d (cu "-") then (true, s')
               else if N.eqb d (cu "+") then (false, s') else (false, s)
  | [] => (false, s)
  end.

(** The optional exponent: [e] or [E], an optional sign, and at least
    one digit. *)
Definition exp_part (s : jsstring) : option (Z * jsstring) :=
  match s with
  | c :: s' =>
      if one_of (lit "eE") c then
        let '(eneg, s3) := exp_sign s' in
        match take_while is_digit s3 with
        | ([], _) => None
        | (ds, s4) => Some (if eneg then (- dec_value ds 0)%Z else dec_value ds 0, s4)
        end
      else Some (0%Z, s)
  | [] => Some (0%Z, s)
  end.

(** The optional minus of a number. *)
Definition minus_sign (s : jsstring) : bool * jsstring :=
  match s with
  | c :: s' => if N.eqb c (cu "-") then (true, s') else (false, s)
  | [] => (false, s)
  end.

(** A number literal: an optional minus, the integer part, the
    optional fraction and the optional exponent. *)
Definition parse_number (s : jsstring) : option (json * jsstring) :=
  let '(neg, s0) := minus_sign s in
  match int_part s0 with
  | None => None
  | Some (ip, s1) =>
      match frac_part s1 with
      | None => None
      | Some (fp, s2) =>
          match exp_part s2 with
          | None => None
          | Some (ex, s4) =>
              Some (JNum (decimal_to_number neg (dec_value (ip ++ fp) 0)
                            (ex - Z.of_nat (List.length fp))), s4)
          end
      end
  end.

(** A value, given the parsers of the members of an object and of the
    elements of an array. *)
Definition value_of
  (members : jsstring -> list (jsstring * json) -> option (json * jsstring))
  (elements : jsstring -> list json -> option (json * jsstring))
  (s : jsstring) : option (json * jsstring) :=
  match skip_ws s with
  | [] => None
  | c :: s1 =>
      if N.eqb c (cu "{") then
        match skip_ws s1 with
        | d :: s2 => if N.eqb d (cu "}") then Some (JObj [], s2)
                     else members (d :: s2) []
        | [] => None
        end
      else if N.eqb c (cu "[") then
        match skip_ws s1 with
        | d :: s2 => if N.eqb d (cu "]") then Some (JArr [], s2)
                     else elements (d :: s2) []
        | [] => None
        end
      else if N.eqb c 34 then
        match parse_chars s1 [] with
        | Some (str, r) => Some (JStr str, r)
        | None => None
        end
      else if is_prefix (lit "true") (c :: s1) then Some (JBool true, skipn 4 (c :: s1))
      else if is_prefix (lit "false") (c :: s1) then Some (JBool false, skipn 5 (c :: s1))
      else if is_prefix (lit "null") (c :: s1) then Some (JNull, skipn 4 (c :: s1))
      else parse_number (c :: s1)
  end.

(** The elements of an array after its opening bracket: a value, then
    a comma and more elements, or the closing bracket. *)
Definition elements_of
  (value : jsstring -> option (json * jsstring))
  (elements : jsstring -> list json -> option (json * jsstring))
  (s : jsstring) (acc : list json) : option (json * jsstring) :=
  match value s with
  | Some (v, r) =>
      match skip_ws r with
      | c :: r1 =>
          if N.eqb c (cu ",") then elements r1 (v :: acc)
          else if N.eqb c (cu "]") then Some (JArr (rev (v :: acc)), r1)
          else None
      | [] => None
      end
  | None => None
  end.

(** The members of an object after its opening brace: a key, a colon
    and a value, then a comma and more members, or the closing brace. *)
Definition members_of
  (value : jsstring -> option (json * jsstring))
  (members : jsstring -> list (jsstring * json) -> option (json * jsstring))
  (s : jsstring) (acc : list (jsstring * json)) : option (json * jsstring) :=
  match skip_ws s with
  | q :: s1 =>
      if N.eqb q 34 then
        match parse_chars s1 [] with
        | Some (key, r) =>
            match skip_ws r with
            | c :: r1 =>
                if N.eqb c (cu ":") then
                  match value r1 with
                  | Some (v, r2) =>
                      match skip_ws r2 with
                      | d :: r3 =>
                          if N.eqb d (cu ",") then members r3 ((key, v) :: acc)
                          else if N.eqb d (cu "}")
                               then Some (JObj (rev ((key, v) :: acc)), r3)
                               else None
                      | [] => None
                      end
                  | None => None
                  end
                else None
            | [] => None
            end
        | None => None
        end
      else None
  | [] => None
  end.

Fixpoint parse_value (n : nat) (s : jsstring) : option (json * jsstring) :=
  match n with
  | O => None
  | S n' => value_of (parse_members n') (parse_elements n') s
  end
with parse_elements (n : nat) (s : jsstring) (acc : list json) : option (json * jsstring) :=
  match n with
  | O => None
  | S n' => elements_of (parse_value n') (parse_elements n') s acc
  end
with parse_members (n : nat) (s : jsstring) (acc : list (jsstring * json))
  : option (json * jsstring) :=
  match n with
  | O => None
  | S n' => members_of (parse_value n') (parse_members n') s acc
  end.

(** [JSON.parse(text)]: one value, white space around it, and nothing
    else. Every nested call of the parser is preceded, at most one call
    earlier, by the reading of a character, so twice the length of the
    text is fuel enough. *)
Definition JSON_parse (rt : Runtime) (text : jsstring) : result json :=
  match parse_value (2 * List.length text + 2) text with
  | Some (v, r) =>
      match skip_ws r with
      | [] => Ok v
      | _ :: _ => Throw (syntaxErrorMessage rt text)
      end
  | None => Throw (syntaxErrorMessage rt text)
  end.

(** ** Reading properties and converting values *)

(** The own property [key] of an object; [None] is [undefined]. *)
Fixpoint own (key : jsstring) (m : list (jsstring * json)) : option json :=
  match m with
  | [] => None
  | (k, v) :: m' =>
      match own key m' with
      | Some v' => Some v'
      | None => if str_eqb k key then Some v else None
      end
  end.

(** [v.key] for a value that is not [null], and a key that no
    prototype defines: only an object has such a property. *)
Definition member (key : jsstring) (v : json) : option json :=
  match v with
  | JObj m => own key m
  | _ => None
  end.

(** [v.key] *)
Definition read (rt : Runtime) (key : jsstring) (v : json) : result (option json) :=
  match v with
  | JNull => Throw (nullReadMessage rt key)
  | _ => Ok (member key v)
  end.

(** [v?.key], for [v] that may be [undefined] *)
Definition read_opt (key : jsstring) (v : option json) : option json :=
  match v with
  | Some v' => member key v'
  | None => None
  end.

(** [v?.[0]] *)
Definition first_opt (v : option json) : option json :=
  match v with
  | Some (JArr l) => nth_error l 0
  | Some (JStr (c :: _)) => Some (JStr [c])
  | Some (JObj m) => own (lit "0") m
  | _ => None
  end.

(** Truthiness; [None] is [undefined]. *)
Definition truthy (v : option json) : bool :=
  match v with
  | None => false
  | Some JNull => false
  | Some (JBool b) => b
  | Some (JNum x) => negb (is_nan x || is_zero x)
  | Some (JStr s) => match s with [] => false | _ :: _ => true end
  | Some (JArr _) => true
  | Some (JObj _) => true
  end.

(** [String(v)] *)
Fixpoint ToString (rt : Runtime) (v : json) : result jsstring :=
  match v with
  | JNull => Ok (lit "null")
  | JBool true => Ok (lit "true")
  | JBool false => Ok (lit "false")
  | JNum x => Ok (Number_toString x)
  | JStr s => Ok s
  | JArr l =>
      (fix join (l : list json) : result jsstring :=
         match l with
         | [] => Ok []
         | x :: l' =>
             a <- match x with JNull => Ok [] | _ => ToString rt x end ;;
             match l' with
             | [] => Ok a
             | _ :: _ => b <- join l' ;; Ok (a ++ lit "," ++ b)
             end
         end) l
  | JObj m =>
      match own (lit "toString") m with
      | Some _ => Throw (toPrimitiveMessage rt)
      | None => Ok (lit "[object Object]")
      end
  end.

(** [Number(v)] *)
Definition ToNumber (rt : Runtime) (v : json) : result number :=
  match v with
  | JNull => Ok zero
  | JBool true => Ok one
  | JBool false => Ok zero
  | JNum x => Ok x
  | JStr s => Ok (StringToNumber s)
  | _ => s <- ToString rt v ;; Ok (StringToNumber s)
  end.

Definition sample_runtime : Runtime :=
  {| syntaxErrorMessage := fun _ => lit "Unexpected token in JSON";
     nullReadMessage := fun key => lit "Cannot read properties of null (reading '" ++ key ++ lit "')";
     toPrimitiveMessage := lit "Cannot convert object to primitive value" |}.

(* ================================================================== *)
(** * 6. Dates *)
(* ================================================================== *)

(** [/^\d{4}-\d{2}-\d{2}$/] *)
Definition dateRegex : regex :=
  Word [Rep 4 (Cls is_digit); Chr "-"; Rep 2 (Cls is_digit); Chr "-"; Rep 2 (Cls is_digit)].

Definition is_leap (y : Z) : bool :=
  ((y mod 4 =? 0) && negb (y mod 100 =? 0) || (y mod 400 =? 0))%Z.

(** DayFromYear of the language specification. *)
Definition DayFromYear (y : Z) : Z :=
  (365 * (y - 1970) + (y - 1969) / 4 - (y - 1901) / 100 + (y - 1601) / 400)%Z.

(** The days of the year before the first of month [m] (1 to 12). *)
Definition days_before_month (y m : Z) : Z :=
  let leap := if is_leap y then 1%Z else 0%Z in
  nth (Z.to_nat (m - 1))
    [0; 31; 59 + leap; 90 + leap; 120 + leap; 151 + leap; 181 + leap; 212 + leap;
     243 + leap; 273 + leap; 304 + leap; 334 + leap]%Z 0%Z.

Definition msPerDay : Z := 1000 * 60 * 60 * 24.

(** [new Date(str).getTime()] for a text of the shape [YYYY-MM-DD],
    the only texts the source passes to [Date]; [None] is the time
    value [NaN] of an invalid date. A date-only text is read as UTC
    midnight; the runtime accepts the months 1 to 12 and the days 1 to
    31, and a day past the end of its month runs into the next one. *)
Definition Date_getTime (str : jsstring) : option Z :=
  match str with
  | [y1; y2; y3; y4; _; m1; m2; _; d1; d2] =>
      let y := dec_value [y1; y2; y3; y4] 0 in
      let m := dec_value [m1; m2] 0 in
      let d := dec_value [d1; d2] 0 in
      if ((1 <=? m) && (m <=? 12) && (1 <=? d) && (d <=? 31))%Z
      then Some ((DayFromYear y + days_before_month y m + d - 1) * msPerDay)%Z
      else None
  | _ => None
  end.

(** Time values are integers of milliseconds, or [None] for [NaN]:
    a comparison with [NaN] is false and a difference with [NaN] is
    [NaN]. *)
Definition nan_ltb (a b : option Z) : bool :=
  match a, b with
  | Some x, Some y => (x <? y)%Z
  | _, _ => false
  end.

Definition nan_sub (a b : option Z) : option Z :=
  match a, b with
  | Some x, Some y => Some (x - y)%Z
  | _, _ => None
  end.

(** [Math.ceil(a / b)] for integers [a] and [b > 0]. *)
Definition ceil_div (a b : Z) : Z := (- ((- a) / b))%Z.

(* ================================================================== *)
(** * 7. The input validator *)
(* ================================================================== *)

(** [/^[0-9a-f]{8}-[0-9a-f]{4}-[0-9a-f]{4}-[0-9a-f]{4}-[0-9a-f]{12}$/i] *)
Definition uuidRegex : regex :=
  Word [Rep 8 (Cls is_hex); Chr "-"; Rep 4 (Cls is_hex); Chr "-"; Rep 4 (Cls is_hex);
        Chr "-"; Rep 4 (Cls is_hex); Chr "-"; Rep 12 (Cls is_hex)].

(** [isValidUUID]: its argument is always the result of [String(...)]. *)
Definition isValidUUID (str : jsstring) : bool := test_whole uuidRegex str.

Definition isValidDateString (str : jsstring) : bool :=
  if negb (test_whole dateRegex str) then false
  else match Date_getTime str with Some _ => true | None => false end.

Record TripRequest := {
  tripId : jsstring;
  destination : jsstring;
  startDate : jsstring;
  endDate : jsstring;
  travelers : number;
  budget : option number;
  preferences : list jsstring
}.

(** [typeof v === 'object'] *)
Definition is_object (v : json) : bool :=
  match v with
  | JNull | JArr _ | JObj _ => true
  | _ => false
  end.

(** [.filter((p) => typeof p === 'string')] *)
Fixpoint strings_of (l : list json) : list jsstring :=
  match l with
  | [] => []
  | JStr s :: l' => s :: strings_of l'
  | _ :: l' => strings_of l'
  end.

Definition nonempty (s : jsstring) : bool :=
  match s with [] => false | _ :: _ => true end.

(** [!data[key] || !valid(String(data[key]))], and the value of
    [String(data[key])] when the test lets it through. *)
Definition checkText (rt : Runtime) (data : json) (key : jsstring)
  (valid : jsstring -> bool) (message : jsstring) : result jsstring :=
  match member key data with
  | Some v =>
      if negb (truthy (Some v)) then Throw message
      else
        s <- ToString rt v ;;
        if negb (valid s) then Throw message else Ok s
  | None => Throw message
  end.

(** Validate destination (required, max 200 chars) *)
Definition checkDestination (data : json) : result jsstring :=
  match member (lit "destination") data with
  | Some (JStr d) =>
      if negb (nonempty d) || Nat.eqb (List.length (String_trim d)) 0
      then Throw (lit "Destination is required")
      else if Nat.ltb 200 (List.length d)
           then Throw (lit "Destination must be less than 200 characters")
           else Ok d
  | _ => Throw (lit "Destination is required")
  end.

(** Validate date logic, and the maximum trip duration: 90 days. The
    times are multiples of [msPerDay], so the quotient is exact. *)
Definition durationDays (startTime endTime : option Z) : option Z :=
  option_map (fun d => ceil_div d msPerDay) (nan_sub endTime startTime).

Definition checkDates (startStr endStr : jsstring) : result unit :=
  let startTime := Date_getTime startStr in
  let endTime := Date_getTime endStr in
  if nan_ltb endTime startTime
  then Throw (lit "End date must be after start date")
  else if nan_ltb (Some 90%Z) (durationDays startTime endTime)
       then Throw (lit "Trip duration cannot exceed 90 days")
       else Ok tt.

Definition travelersRejected (t : number) : bool :=
  is_nan t || (t <? 1)%float || (20 <? t)%float || negb (Number_isInteger t).

(** Validate travelers (optional, default 1, range 1-20) *)
Definition checkTravelers (rt : Runtime) (data : json) : result number :=
  match member (lit "travelers") data with
  | None => Ok one
  | Some v =>
      t <- ToNumber rt v ;;
      if travelersRejected t
      then Throw (lit "Travelers must be an integer between 1 and 20")
      else Ok t
  end.

Definition budgetRejected (b : number) : bool :=
  is_nan b || (b <? 0)%float || (100000000 <? b)%float.

(** Validate budget (optional, positive number) *)
Definition checkBudget (rt : Runtime) (data : json) : result (option number) :=
  match member (lit "budget") data with
  | None | Some JNull => Ok None
  | Some v =>
      b <- ToNumber rt v ;;
      if budgetRejected b
      then Throw (lit "Budget must be a positive number")
      else Ok (Some b)
  end.

(** Validate preferences (optional, array of strings, max 15 items,
    each max 50 chars) *)
Definition checkPreferences (data : json) : result (list jsstring) :=
  match member (lit "preferences") data with
  | None => Ok []
  | Some (JArr l) =>
      if Nat.ltb 15 (List.length l)
      then Throw (lit "Maximum 15 preferences allowed")
      else Ok (filter nonempty (map (fun p => sanitizeString p 50) (strings_of l)))
  | Some _ => Throw (lit "Preferences must be an array")
  end.

(** [validateTripInput]: the checks in the order of the source, the
    first failure thrown. *)
Definition validateTripInput (rt : Runtime) (body : json) : result TripRequest :=
  if negb (truthy (Some body)) || negb (is_object body)
  then Throw (lit "Invalid request body")
  else
    let data := body in
    tripIdStr <- checkText rt data (lit "tripId") isValidUUID
                   (lit "Invalid or missing tripId") ;;
    dest <- checkDestination data ;;
    startStr <- checkText rt data (lit "startDate") isValidDateString
                  (lit "Invalid or missing startDate (format: YYYY-MM-DD)") ;;
    endStr <- checkText rt data (lit "endDate") isValidDateString
                (lit "Invalid or missing endDate (format: YYYY-MM-DD)") ;;
    _ <- checkDates startStr endStr ;;
    travelers <- checkTravelers rt data ;;
    budget <- checkBudget rt data ;;
    preferences <- checkPreferences data ;;
    Ok {| tripId := tripIdStr;
          destination := sanitizeString dest 200;
          startDate := startStr;
          endDate := endStr;
          travelers := travelers;
          budget := budget;
          preferences := preferences |}.

(** The validated structure as a request body. *)
Definition toBody (r : TripRequest) : json :=
  JObj [(lit "tripId", JStr (tripId r));
        (lit "destination", JStr (destination r));
        (lit "startDate", JStr (startDate r));
        (lit "endDate", JStr (endDate r));
        (lit "travelers", JNum (travelers r));
        (lit "budget", match budget r with Some b => JNum b | None => JNull end);
        (lit "preferences", JArr (map JStr (preferences r)))].

(* ================================================================== *)
(** * 8. The extractor and the normalizer *)
(* ================================================================== *)

Definition White : regex := Star (Cls is_space).

(** [\d+(?:\.\d+)?] *)
Definition Numeral : regex :=
  Seq (Plus (Cls is_digit)) (Opt (Seq (Chr ".") (Plus (Cls is_digit)))).

Definition is_separator (c : N) : bool := N.eqb c 10 || one_of (lit ",}]") c.

(** [(?=\s*[\n,}\]])] *)
Definition SeparatorAhead : regex := Ahead (Seq White (Cls is_separator)).

(** [/,\s*([}\]])/g] *)
Definition trailingComma : regex :=
  Word [Chr ","; White; Group 1 (Cls (one_of (lit "}]")))].

(** [/[\x00-\x1F\x7F]/g] *)
Definition is_control (c : N) : bool := N.leb c 31 || N.eqb c 127.

(** [/:\s*(\d+(?:\.\d+)?)\s*\*\s*(\d+(?:\.\d+)?)(?=\s*[\n,}\]])/g] *)
Definition product : regex :=
  Word [Chr ":"; White; Group 1 Numeral; White; Chr "*"; White; Group 2 Numeral;
        SeparatorAhead].

(** [/:\s*(\d+(?:\.\d+)?)(?:\s*\([^)]*\))(?=\s*[\n,}\]])/g] *)
Definition note : regex :=
  Word [Chr ":"; White; Group 1 Numeral;
        Word [White; Chr "("; Star (Cls (fun c => negb (N.eqb c (cu ")")))); Chr ")"];
        SeparatorAhead].

(** The replacer of a product: the rounded value of [a * b], or [0]
    when the product is not finite. *)
Definition productValue (a b : jsstring) : jsstring :=
  let n := (StringToNumber a * StringToNumber b)%float in
  lit ": " ++ (if Number_isFinite n then Number_toString (Math_round n) else lit "0").

Definition removeTrailingCommas (text : jsstring) : jsstring :=
  replace_all trailingComma (fun _ c => capture 1 c) text.

Definition removeControlCharacters (text : jsstring) : jsstring :=
  replace_all (Cls is_control) (fun _ _ => []) text.

Definition rewriteProducts (text : jsstring) : jsstring :=
  replace_all product (fun _ c => productValue (capture 1 c) (capture 2 c)) text.

Definition stripNotes (text : jsstring) : jsstring :=
  replace_all note (fun _ c => lit ": " ++ capture 1 c) text.

Definition normalizeJsonText (input : jsstring) : jsstring :=
  let text := input in
  (* Remove trailing commas before closing braces/brackets *)
  let text := removeTrailingCommas text in
  (* Remove control characters that break JSON.parse *)
  let text := removeControlCharacters text in
  (* Only fix very safe arithmetic cases where the whole value is a pure expression *)
  let text := rewriteProducts text in
  (* Strip parenthetical notes after a number and before a separator *)
  let text := stripNotes text in
  text.

Definition ci (a : ascii) : regex :=
  Cls (fun c => N.eqb c (cu a) || N.eqb (c + 32) (cu a)).

(** [/```json\s*/gi] *)
Definition jsonFence : regex :=
  Word [Chr "`"; Chr "`"; Chr "`"; ci "j"; ci "s"; ci "o"; ci "n"; White].

(** [/```\s*/g] *)
Definition fence : regex := Word [Chr "`"; Chr "`"; Chr "`"; White].

Definition extractJsonCandidate (text : jsstring) : result jsstring :=
  let cleaned :=
    String_trim (replace_all fence (fun _ _ => [])
                   (replace_all jsonFence (fun _ _ => []) (String_trim text))) in
  match String_indexOf (lit "{") cleaned, String_lastIndexOf (lit "}") cleaned with
  | Some start, Some fin =>
      if Nat.leb fin start
      then Throw (lit "No JSON object found in AI response")
      else Ok (String_slice cleaned (Z.of_nat start) (Z.of_nat fin + 1))
  | _, _ => Throw (lit "No JSON object found in AI response")
  end.

(* ================================================================== *)
(** * 9. The collaborators of the handler *)
(* ================================================================== *)

(** ** The [trips] table

    The columns the handler reads and writes, and the two ways it
    reaches the table: the caller's client, on which the row-level
    policies of the migration apply ([USING (auth.uid() = user_id)] for
    SELECT and UPDATE), and the service-role client, which bypasses
    them. *)
Record TripRow := {
  id : jsstring;
  user_id : jsstring;
  ai_itinerary : option json;
  status : jsstring
}.

Definition Table := list TripRow.

(** [supabaseClient.from('trips').select('user_id').eq('id', tripId).single()]
    as the user [uid]: the rows the policy shows, filtered by id;
    [single] is an error unless exactly one row is left. The result is
    the pair [{ data, error }]. *)
Definition select_single (uid tripId : jsstring) (t : Table)
  : option jsstring * option jsstring :=
  match filter (fun r => str_eqb (id r) tripId)
               (filter (fun r => str_eqb (user_id r) uid) t) with
  | [r] => (Some (user_id r), None)
  | _ => (None, Some (lit "JSON object requested, multiple (or no) rows returned"))
  end.

(** [supabaseAdmin.from('trips').update({ ai_itinerary, status })
    .eq('id', tripId).eq('user_id', uid)]: every row that matches both
    filters is written; matching no row is not an error. *)
Definition update_where (tripId uid : jsstring) (itinerary : json) (st : jsstring)
  (t : Table) : Table :=
  map (fun r =>
         if str_eqb (id r) tripId && str_eqb (user_id r) uid
         then {| id := id r; user_id := user_id r;
                 ai_itinerary := Some itinerary; status := st |}
         else r) t.

Definition rows_affected (tripId uid : jsstring) (t : Table) : nat :=
  List.length (filter (fun r => str_eqb (id r) tripId && str_eqb (user_id r) uid) t).

(** ** The world of one invocation *)

Record HttpResponse := {
  http_status : Z;
  http_text : jsstring
}.

(** [response.ok] *)
Definition http_ok (r : HttpResponse) : bool :=
  ((200 <=? http_status r) && (http_status r <=? 299))%Z.

Record World := {
  (* the request *)
  req_method : jsstring;
  req_authorization : option jsstring;
  req_json : result json;
  (* Deno.env *)
  SUPABASE_URL : option jsstring;
  SUPABASE_ANON_KEY : option jsstring;
  SUPABASE_SERVICE_ROLE_KEY : option jsstring;
  LOVABLE_API_KEY : option jsstring;
  (* auth.getUser(token): the id of the user, and the error *)
  getUser : jsstring -> option jsstring * option jsstring;
  (* the trips table when the handler looks the trip up *)
  trips : Table;
  (* what other clients do to the table while the handler waits for
     the gateway *)
  meanwhile : Table -> Table;
  (* an infrastructure error of the lookup, of the update *)
  select_fault : option jsstring;
  update_fault : option jsstring;
  (* the gateway's answer to the n-th request of the invocation; a
     thrown error is a failed fetch *)
  gateway : nat -> result HttpResponse
}.

Record Response := {
  res_status : Z;
  res_body : option json
}.

(** What an invocation leaves behind: its response, the table, and the
    number of requests it sent to the gateway. *)
Record Outcome := {
  response : Response;
  table : Table;
  requests : nat
}.

(* ================================================================== *)
(** * 10. The handler *)
(* ================================================================== *)

Definition truthy_string (s : option jsstring) : bool :=
  match s with
  | Some (_ :: _) => true
  | _ => false
  end.

(** [str.replace(needle, '')] with a string pattern: the first
    occurrence is removed. *)
Fixpoint remove_first (needle s : jsstring) : jsstring :=
  if is_prefix needle s then skipn (List.length needle) s
  else match s with
       | [] => []
       | c :: s' => c :: remove_first needle s'
       end.

(** [callLovableAi]: the [n]-th request to the gateway. *)
Definition callLovableAi (rt : Runtime) (w : World) (n : nat) : result json :=
  response <- gateway w n ;;
  let text := http_text response in
  if negb (http_ok response)
  then Throw (lit "Lovable AI error: " ++
              (if (http_status response <? 0)%Z then lit "-" else []) ++
              Z_to_dec (Z.abs (http_status response)))
  else
    try_catch (JSON_parse rt text)
      (fun _ => Throw (lit "Lovable AI gateway returned non-JSON response")).

(** [typeof v === 'string'], for [v] that may be [undefined] *)
Definition as_string (v : option json) : option jsstring :=
  match v with
  | Some (JStr s) => Some s
  | _ => None
  end.

(** [new Error(v).message] *)
Definition error_message (rt : Runtime) (v : json) : result jsstring := ToString rt v.

(** [repairJsonWithAi]: the prompt quotes [rawContent]; the request is
    the [n]-th of the invocation. *)
Definition repairJsonWithAi (rt : Runtime) (w : World) (n : nat) : result jsstring :=
  repaired <- callLovableAi rt w n ;;
  choices <- read rt (lit "choices") repaired ;;
  let content := read_opt (lit "content") (read_opt (lit "message") (first_opt choices)) in
  match content with
  | Some (JStr (c :: s)) => Ok (c :: s)
  | _ => Throw (lit "No content found in AI repair response")
  end.

Definition busyMessage : jsstring :=
  lit "AI service is temporarily busy. Please try again in a few minutes.".

(** The inspection of the metadata of a choice error: the rate-limit
    error is thrown inside the [try] whose [catch] ignores every
    error. *)
Definition inspectMetadata (rt : Runtime) (rawMetadata : json) : result unit :=
  try_catch
    (text <- ToString rt rawMetadata ;;
     parsed <- JSON_parse rt text ;;
     err <- read rt (lit "error") parsed ;;
     if (match read_opt (lit "status") err with
         | Some (JStr s) => str_eqb s (lit "RESOURCE_EXHAUSTED")
         | _ => false
         end)
        || (match read_opt (lit "code") err with
            | Some (JNum x) => (x =? 429)%float
            | _ => false
            end)
     then Throw busyMessage
     else Ok tt)
    (fun _ => Ok tt).

(** Extract, normalize, parse: the three steps of both passes. *)
Definition parseItinerary (rt : Runtime) (content : jsstring) : result json :=
  jsonText <- extractJsonCandidate content ;;
  JSON_parse rt (normalizeJsonText jsonText).

(** [new Error(v || fallback).message] *)
Definition message_or (rt : Runtime) (v : option json) (fallback : jsstring)
  : result jsstring :=
  match v with
  | Some v' => if truthy (Some v') then error_message rt v' else Ok fallback
  | None => Ok fallback
  end.

(** The body of the first [try]: the value of [rawContent] when the
    block is left, and the itinerary or the error thrown. *)
Definition firstPass (rt : Runtime) (data : json) : option json * result json :=
  match read rt (lit "error") data with
  | Throw m => (None, Throw m)
  | Ok topError =>
      if truthy topError then
        (None,
         msg <- message_or rt (read_opt (lit "message") topError)
                  (lit "Lovable AI internal error") ;;
         Throw msg)
      else
        let choice := first_opt (member (lit "choices") data) in
        let choiceError := read_opt (lit "error") choice in
        if truthy choiceError then
          (None,
           _ <- match read_opt (lit "raw") (read_opt (lit "metadata") choiceError) with
                | Some rawMetadata =>
                    if truthy (Some rawMetadata) then inspectMetadata rt rawMetadata else Ok tt
                | None => Ok tt
                end ;;
           msg <- message_or rt (read_opt (lit "message") choiceError)
                    (lit "AI service error. Please try again.") ;;
           Throw msg)
        else
          let rawContent := read_opt (lit "content") (read_opt (lit "message") choice) in
          (rawContent,
           match as_string rawContent with
           | Some (c :: s) => parseItinerary rt (c :: s)
           | _ => Throw (lit "No content found in AI response")
           end)
  end.

Definition invalidFormat : jsstring :=
  lit "AI returned an invalid itinerary format. Please tap Generate/Regenerate Itinerary to try again.".

(** [{ error: '...', rawContent: rawContent || null }] *)
Definition placeholder (rawContent : option json) : json :=
  JObj [(lit "error", JStr invalidFormat);
        (lit "rawContent",
         match rawContent with
         | Some v => if truthy rawContent then v else JNull
         | None => JNull
         end)].

(** The second [try]: the repair request is the second request of the
    invocation; the result comes with the number of requests sent so
    far. *)
Definition repairPass (rt : Runtime) (w : World) : result json :=
  repairedContent <- repairJsonWithAi rt w 1 ;;
  parseItinerary rt repairedContent.

Definition repairAttempt (rt : Runtime) (w : World) (rawContent : option json)
  : result json * nat :=
  if negb (truthy rawContent)
  then (Throw (lit "Missing rawContent for repair"), 1)
  else (repairPass rt w, 2).

(** The second pass, in the [catch] of the first: the repaired
    itinerary, or the error placeholder when the repair fails too. *)
Definition secondPass (rt : Runtime) (w : World) (rawContent : option json) : json * nat :=
  match repairAttempt rt w rawContent with
  | (Ok itinerary, n) => (itinerary, n)
  | (Throw _, n) => (placeholder rawContent, n)
  end.

Definition json_response (st : Z) (body : list (jsstring * json)) : Response :=
  {| res_status := st; res_body := Some (JObj body) |}.

Definition planned : jsstring := lit "planned".
Definition draft : jsstring := lit "draft".

(** [itinerary?.error ? 'draft' : 'planned'] *)
Definition nextStatus (itinerary : json) : jsstring :=
  if truthy (member (lit "error") itinerary) then draft else planned.

(** The response after a successful update. *)
Definition finalResponse (itinerary : json) : Response :=
  let failed := truthy (member (lit "error") itinerary) in
  json_response 200
    ([(lit "success", JBool (negb failed)); (lit "itinerary", itinerary)] ++
     match member (lit "error") itinerary with
     | Some e =>
         if failed
         then [(lit "error", e); (lit "retryable", JBool true)]
         else [(lit "message", JStr (lit "Trip planned successfully with AI!"))]
     | None => [(lit "message", JStr (lit "Trip planned successfully with AI!"))]
     end).

(** The update of the trip through the service-role client, on the
    table [t] of that moment, and the response; [n] requests were sent
    to the gateway. The only failure the handler looks at is the error
    of the update. *)
Definition persist (w : World) (uid tripId : jsstring) (t : Table) (itinerary : json)
  (n : nat) : result Response * Table * nat :=
  match update_fault w with
  | Some m => (Throw (lit "Failed to update trip: " ++ m), t, n)
  | None =>
      (Ok (finalResponse itinerary),
       update_where tripId uid itinerary (nextStatus itinerary) t, n)
  end.

(** [errorMessage.includes('temporarily busy') || errorMessage.includes('try again')] *)
Definition looksRateLimited (errorMessage : jsstring) : bool :=
  String_includes (lit "temporarily busy") errorMessage
  || String_includes (lit "try again") errorMessage.

Definition rateLimitResponse (errorMessage : jsstring) : Response :=
  json_response 429
    [(lit "error", JStr errorMessage); (lit "success", JBool false);
     (lit "retryable", JBool true)].

(** The itinerary the two passes produce from [data], with the number
    of requests sent, or the message of the error that looks like a
    rate limit. *)
Definition produce (rt : Runtime) (w : World) (data : json) : jsstring + json * nat :=
  match firstPass rt data with
  | (_, Ok itinerary) => inr (itinerary, 1)
  | (rawContent, Throw errorMessage) =>
      if looksRateLimited errorMessage
      then inl errorMessage
      else inr (secondPass rt w rawContent)
  end.

(** The handler after the first request to the gateway has returned
    [data]: parse, repair, persist, respond. *)
Definition finish (rt : Runtime) (w : World) (uid tripId : jsstring) (data : json)
  : result Response * Table * nat :=
  let t := meanwhile w (trips w) in
  match produce rt w data with
  | inl errorMessage => (Ok (rateLimitResponse errorMessage), t, 1)
  | inr (itinerary, n) => persist w uid tripId t itinerary n
  end.

(** The lookup of the owner of the trip, through the caller's client. *)
Definition lookupTrip (w : World) (uid tripId : jsstring)
  : option jsstring * option jsstring :=
  match select_fault w with
  | Some m => (None, Some m)
  | None => select_single uid tripId (trips w)
  end.

(** The handler after validation, given the result [{ data: trip,
    error: tripError }] of the lookup: the ownership check, the first
    request to the gateway, and the rest. *)
Definition authorizeAndPlan (rt : Runtime) (w : World) (uid tripId : jsstring)
  (lookup : option jsstring * option jsstring) : result Response * Table * nat :=
  match lookup with
  | (Some owner, None) =>
      if negb (str_eqb owner uid)
      then (Ok (json_response 403
                  [(lit "error", JStr (lit "Unauthorized: You do not own this trip"))]),
            trips w, 0)
      else
      if negb (truthy_string (LOVABLE_API_KEY w))
      then (Throw (lit "Lovable AI API key not configured"), trips w, 0)
      else
        match callLovableAi rt w 0 with
        | Throw m => (Throw m, meanwhile w (trips w), 1)
        | Ok data => finish rt w uid tripId data
        end
  | _ =>
      (Ok (json_response 404 [(lit "error", JStr (lit "Trip not found"))]), trips w, 0)
  end.

Definition unauthorized (w : World) (msg : jsstring) : result Response * Table * nat :=
  (Ok (json_response 401 [(lit "error", JStr msg)]), trips w, 0).

(** [authHeader.replace('Bearer ', '')] *)
Definition tokenOf (w : World) : jsstring :=
  remove_first (lit "Bearer ")
    (match req_authorization w with Some h => h | None => [] end).

(** The body of the outer [try]. *)
Definition handle (rt : Runtime) (w : World) : result Response * Table * nat :=
  (* authentication *)
  if negb (truthy_string (req_authorization w))
  then unauthorized w (lit "Unauthorized: Missing authorization header")
  else
  if negb (nonempty (tokenOf w))
  then unauthorized w (lit "Unauthorized: Invalid token format")
  else
  if negb (truthy_string (SUPABASE_URL w)) || negb (truthy_string (SUPABASE_ANON_KEY w))
     || negb (truthy_string (SUPABASE_SERVICE_ROLE_KEY w))
  then (Throw (lit "Supabase configuration missing"), trips w, 0)
  else
  match getUser w (tokenOf w) with
  | (Some uid, None) =>
      (* input validation *)
      match (body <- req_json w ;; validateTripInput rt body) with
      | Throw m => (Ok (json_response 400 [(lit "error", JStr m)]), trips w, 0)
      | Ok validatedInput =>
          (* authorization: verify trip ownership *)
          authorizeAndPlan rt w uid (tripId validatedInput)
            (lookupTrip w uid (tripId validatedInput))
      end
  | _ => unauthorized w (lit "Unauthorized: Invalid or expired token")
  end.

(** The outer [catch]: a thrown error becomes the 500 response. *)
Definition respond (r : result Response * Table * nat) : Outcome :=
  let '(res, t, n) := r in
  {| response :=
       match res with
       | Ok res' => res'
       | Throw m => json_response 500 [(lit "error", JStr m); (lit "success", JBool false)]
       end;
     table := t; requests := n |}.

Definition serve (rt : Runtime) (w : World) : Outcome :=
  (* Handle CORS preflight requests *)
  if str_eqb (req_method w) (lit "OPTIONS")
  then {| response := {| res_status := 200; res_body := None |};
          table := trips w; requests := 0 |}
  else respond (handle rt w).

(** ** The shapes the normalizer rewrites, in words

    A numeric literal is a run of digits, or two runs of digits around
    a point. A separator follows a position when, after optional white
    space, a line feed, a comma or a closing brace or bracket comes. *)
Definition blank (w : jsstring) : Prop := forallb is_space w = true.

Definition digits (d : jsstring) : Prop := d <> [] /\ forallb is_digit d = true.

Inductive numeral : jsstring -> Prop :=
| numeral_integer d : digits d -> numeral d
| numeral_fraction i f : digits i -> digits f -> numeral (i ++ cu "." :: f).

Definition separator_follows (rest : jsstring) : Prop :=
  exists w c rest', rest = w ++ c :: rest' /\ blank w /\ is_separator c = true.

(** [t] starts with a colon and a product of two numeric literals
    [a * b], a separator follows, and [rest] is what comes after the
    product. *)
Definition product_shape (t a b rest : jsstring) : Prop :=
  exists w1 w2 w3,
    t = cu ":" :: w1 ++ a ++ w2 ++ cu "*" :: w3 ++ b ++ rest /\
    blank w1 /\ blank w2 /\ blank w3 /\ numeral a /\ numeral b /\
    separator_follows rest.

(** [t] starts with a colon, a numeric literal [a] and a parenthetical
    note, a separator follows, and [rest] is what comes after the
    note. *)
Definition note_shape (t a rest : jsstring) : Prop :=
  exists w1 w2 inner,
    t = cu ":" :: w1 ++ a ++ w2 ++ cu "(" :: inner ++ cu ")" :: rest /\
    blank w1 /\ blank w2 /\ ~ In (cu ")") inner /\ numeral a /\
    separator_follows rest.

(** [t] starts with a comma that, after optional white space, is
    followed by the closing brace or bracket [c]. *)
Definition trailing_comma_shape (t : jsstring) (c : N) (rest : jsstring) : Prop :=
  exists w, t = cu "," :: w ++ c :: rest /\ blank w /\ one_of (lit "}]") c = true.

(** A shape occurs in a text when a suffix of the text has it. *)
Definition occurs (shape : jsstring -> Prop) (text : jsstring) : Prop :=
  exists pre t, text = pre ++ t /\ shape t.

(** A text on which the first two steps of the normalizer do nothing:
    it has no control character, and no comma before a closing brace
    or bracket. *)
Definition tidy (text : jsstring) : Prop :=
  forallb (fun c => negb (is_control c)) text = true /\
  ~ occurs (fun t => exists c rest, trailing_comma_shape t c rest) text.

(** Whether the pattern [r] matches somewhere in the text. *)
Fixpoint found (r : regex) (text : jsstring) : bool :=
  match match_here r text with
  | Some _ => true
  | None => match text with
            | [] => false
            | _ :: t => found r t
            end
  end.

(** The text without its control characters below the space. *)
Definition strip (s : jsstring) : jsstring := filter (fun c => negb (N.leb c 31)) s.

(** What may come after a value: after optional white space, the end
    of the text, a comma, or a closing bracket or brace. *)
Definition follow (r : jsstring) : Prop :=
  match skip_ws r with
  | [] => True
  | c :: _ => one_of (lit ",]}") c = true
  end.

(** The parser [g] finds every result that the parser [f] finds by
    reading at most [B / 2] code units; every result of [f] is found by
    reading at least one. *)
Definition covers (B : nat) (f g : jsstring -> option (json * jsstring)) : Prop :=
  forall s v r, f s = Some (v, r) ->
    List.length r < List.length s /\
    (2 * (List.length s - List.length r) <= B -> g s = Some (v, r)).

Definition covers_with (A : Type) (B : nat)
  (f g : jsstring -> A -> option (json * jsstring)) : Prop :=
  forall acc, covers B (fun s => f s acc) (fun s => g s acc).

(** The head of [s], if any, is outside the class [p]. *)
Definition stops (p : N -> bool) (s : jsstring) : Prop :=
  match s with
  | x :: _ => p x = false
  | [] => True
  end.

Definition printable (c : N) : bool := negb (N.leb c 31).

(** What may come after a number literal without changing it: not a
    digit, a point or an exponent mark. *)
Definition ends_number (r : jsstring) : Prop :=
  stops is_digit r /\ stops (fun c => N.eqb c (cu ".")) r /\
  stops (one_of (lit "eE")) r.

(** The head of [s], if any, is in the class [p]. *)
Definition headed (p : N -> bool) (s : jsstring) : Prop :=
  match s with
  | x :: _ => p x = true
  | [] => True
  end.

(** A parser that reads a value only at a printable character, and
    reads the same value when the control characters are taken out of
    a text whose value is followed by a separator or by nothing. *)
Definition robust (f : jsstring -> option (json * jsstring)) : Prop :=
  forall s v r, f s = Some (v, r) ->
    (exists c s1, skip_ws s = c :: s1 /\ N.leb c 31 = false) /\
    (follow r -> f (strip s) = Some (v, strip r)).

Definition robust_with (A : Type)
  (f : jsstring -> A -> option (json * jsstring)) : Prop :=
  forall acc, robust (fun s => f s acc).

(** ** The stages an invocation has passed *)

(** The request is not a preflight, carries a token, the configuration
    is complete and the identity provider names the user [uid]. *)
Definition authenticated (w : World) (uid : jsstring) : Prop :=
  str_eqb (req_method w) (lit "OPTIONS") = false /\
  truthy_string (req_authorization w) = true /\
  nonempty (tokenOf w) = true /\
  truthy_string (SUPABASE_URL w) = true /\
  truthy_string (SUPABASE_ANON_KEY w) = true /\
  truthy_string (SUPABASE_SERVICE_ROLE_KEY w) = true /\
  getUser w (tokenOf w) = (Some uid, None).

(** The body of the request decodes and validates to [input]. *)
Definition validated (rt : Runtime) (w : World) (input : TripRequest) : Prop :=
  (body <- req_json w ;; validateTripInput rt body) = Ok input.

(** The invocation passes authentication, validation and the ownership
    check, and the first request to the gateway returns [data]. *)
Definition reachesGateway (rt : Runtime) (w : World) (uid : jsstring)
  (input : TripRequest) (data : json) : Prop :=
  authenticated w uid /\ validated rt w input /\
  lookupTrip w uid (tripId input) = (Some uid, None) /\
  truthy_string (LOVABLE_API_KEY w) = true /\
  callLovableAi rt w 0 = Ok data.


(* ================================================================== *)
(** * 11. Sample inputs *)
(* ================================================================== *)

Definition trip1 : jsstring := lit "550e8400-e29b-41d4-a716-446655440000".
Definition alice : jsstring := lit "8f14e45f-ceea-467f-a9d2-3d1c5e0b7a11".

Definition request_body (dest start fin : jsstring) : json :=
  JObj [(lit "tripId", JStr trip1); (lit "destination", JStr dest);
        (lit "startDate", JStr start); (lit "endDate", JStr fin)].

Definition paris_body : json :=
  request_body (lit "Paris") (lit "2024-06-01") (lit "2024-06-03").

(** Ninety days: 2024 is a leap year. *)
Definition ninety_days_body : json :=
  request_body (lit "Lisbon") (lit "2024-01-01") (lit "2024-03-31").

Definition ninety_one_days_body : json :=
  request_body (lit "Lisbon") (lit "2024-01-01") (lit "2024-04-01").

Definition paris_request : TripRequest :=
  {| tripId := trip1; destination := lit "Paris";
     startDate := lit "2024-06-01"; endDate := lit "2024-06-03";
     travelers := one; budget := None; preferences := [] |}.

(** A body whose destination is made of stripped characters only. *)
Definition brackets_body : json :=
  request_body (lit "<>") (lit "2024-06-01") (lit "2024-06-03").

(** The invocation of a signed-in [alice] for [trip1], which [owner]
    owns, with scripted answers of the gateway. *)
Definition sample_world (owner : jsstring) (answers : nat -> result HttpResponse) : World :=
  {| req_method := lit "POST";
     req_authorization := Some (lit "Bearer token-of-alice");
     req_json := Ok paris_body;
     SUPABASE_URL := Some (lit "https://project.supabase.co");
     SUPABASE_ANON_KEY := Some (lit "anon-key");
     SUPABASE_SERVICE_ROLE_KEY := Some (lit "service-key");
     LOVABLE_API_KEY := Some (lit "gateway-key");
     getUser := fun token =>
       if str_eqb token (lit "token-of-alice") then (Some alice, None)
       else (None, Some (lit "invalid JWT"));
     trips := [{| id := trip1; user_id := owner; ai_itinerary := None; status := draft |}];
     meanwhile := fun t => t;
     select_fault := None;
     update_fault := None;
     gateway := answers |}.

Definition answer (text : jsstring) : result HttpResponse :=
  Ok {| http_status := 200; http_text := text |}.

Definition no_more : result HttpResponse := Throw (lit "error sending request").


(** A completion that parses at once. *)
Definition good_answers (n : nat) : result HttpResponse :=
  match n with
  | O => answer (qlit "{'choices':[{'message':{'content':'{\'overview\':\'Two days in Paris\'}'}}]}")
  | _ => no_more
  end.

(** The rate-limit payload of the gateway: an error in the first
    choice, whose metadata reports [RESOURCE_EXHAUSTED] and 429. *)
Definition rate_limit_answers (n : nat) : result HttpResponse :=
  match n with
  | O => answer (qlit "{'choices':[{'error':{'message':'Provider returned error','code':429,'metadata':{'raw':'{\'error\':{\'code\':429,\'status\':\'RESOURCE_EXHAUSTED\'}}'}}}]}")
  | _ => no_more
  end.


(** The decoded completion of the first request, [null] if there is
    none. *)
Definition first_completion (w : World) : json :=
  match callLovableAi sample_runtime w 0 with
  | Ok data => data
  | Throw _ => JNull
  end.

(** The trip is deleted while the handler waits for the gateway. *)
Definition deleted_meanwhile_world : World :=
  let w := sample_world alice good_answers in
  {| req_method := req_method w; req_authorization := req_authorization w;
     req_json := req_json w; SUPABASE_URL := SUPABASE_URL w;
     SUPABASE_ANON_KEY := SUPABASE_ANON_KEY w;
     SUPABASE_SERVICE_ROLE_KEY := SUPABASE_SERVICE_ROLE_KEY w;
     LOVABLE_API_KEY := LOVABLE_API_KEY w; getUser := getUser w; trips := trips w;
     meanwhile := fun _ => [];
     select_fault := None; update_fault := None; gateway := gateway w |}.

(** A completion laid out over several lines, with tabs. *)
Definition multiline_text : jsstring :=
  qlit "{" ++ [10; 9]%N ++ qlit "'cost': 1380," ++ [13; 10; 9]%N
  ++ qlit "'days': [1, 2.5e1, true, null]," ++ [10; 9]%N
  ++ qlit "'tip': 'bring 2 * 3 (six) coins'," ++ [10; 9]%N
  ++ qlit "'nights': 3" ++ [10]%N ++ qlit "}" ++ [10]%N.

(* ================================================================== *)
(** * Properties of the regular expression engine *)
(* ================================================================== *)

Lemma star_loop_sound m r :
  (forall s c k res, m s c k = Some res ->
     exists s1 c1, matches r s s1 /\ k s1 c1 = Some res) ->
  forall n s c k res, star_loop m n s c k = Some res ->
     exists s1 c1, matches (Star r) s s1 /\ k s1 c1 = Some res.
Proof.
  intros Hm n. induction n as [|n IH]; intros s c k res H; simpl in H.
  - exists s, c. split; [constructor | exact H].
  - destruct (m s c _) as [res'|] eqn:E.
    + injection H as <-. apply Hm in E. destruct E as (s1 & c1 & M1 & K1).
      destruct (Nat.ltb _ _); [|discriminate].
      apply IH in K1. destruct K1 as (s2 & c2 & M2 & K2).
      exists s2, c2. split; [eapply M_Star_step; eassumption | exact K2].
    + exists s, c. split; [constructor | exact H].
Qed.

(** Every result of [exec] is a result of its continuation, reached
    through a match of the expression. *)
Lemma exec_sound r :
  forall s c k res, exec r s c k = Some res ->
    exists s1 c1, matches r s s1 /\ k s1 c1 = Some res.
Proof.
  induction r; intros s c k res H; simpl in H.
  - exists s, c. split; [constructor | exact H].
  - destruct s as [|x s]; [discriminate|]. destruct (p x) eqn:P; [|discriminate].
    exists s, c. split; [constructor; exact P | exact H].
  - apply IHr1 in H. destruct H as (s1 & c1 & M1 & H).
    apply IHr2 in H. destruct H as (s2 & c2 & M2 & H).
    exists s2, c2. split; [econstructor; eassumption | exact H].
  - eapply star_loop_sound; eassumption.
  - destruct (exec r s c k) as [res'|] eqn:E.
    + injection H as <-. apply IHr in E. destruct E as (s1 & c1 & M1 & K1).
      exists s1, c1. split; [apply M_Opt_take; exact M1 | exact K1].
    + exists s, c. split; [constructor | exact H].
  - apply IHr in H. destruct H as (s1 & c1 & M1 & H).
    eexists s1, _. split; [constructor; exact M1 | exact H].
  - destruct (exec r s c _) as [[s1 c1]|] eqn:E; [|discriminate].
    apply IHr in E. destruct E as (s2 & c2 & M2 & _).
    exists s, c1. split; [econstructor; exact M2 | exact H].
  - destruct s; [|discriminate]. exists [], c. split; [constructor | exact H].
Qed.

Lemma match_here_sound r s rest c :
  match_here r s = Some (rest, c) -> matches r s rest.
Proof.
  unfold match_here. intros H. apply exec_sound in H.
  destruct H as (s1 & c1 & M & E). injection E as <- <-. exact M.
Qed.

(** A match leaves a suffix of the input. *)
Lemma matches_suffix r s s' : matches r s s' -> exists w, s = w ++ s'.
Proof.
  induction 1.
  - exists []. reflexivity.
  - exists [x]. reflexivity.
  - destruct IHmatches1 as [w1 ->], IHmatches2 as [w2 ->].
    exists (w1 ++ w2). now rewrite app_assoc.
  - exists []. reflexivity.
  - destruct IHmatches1 as [w1 ->], IHmatches2 as [w2 ->].
    exists (w1 ++ w2). now rewrite app_assoc.
  - exists []. reflexivity.
  - exact IHmatches.
  - exact IHmatches.
  - exists []. reflexivity.
  - exists []. reflexivity.
Qed.

(** ** Global replacement *)

Lemma replace_fuel_enough r f :
  forall n m s, List.length s < n -> List.length s < m ->
    replace_fuel n r f s = replace_fuel m r f s.
Proof.
  induction n as [|n IH]; intros m s Hn Hm; [lia|].
  destruct m as [|m]; [lia|]. simpl.
  destruct (match_here r s) as [[rest c]|].
  - destruct (Nat.ltb (List.length rest) (List.length s)) eqn:L.
    + apply Nat.ltb_lt in L. f_equal. apply IH; lia.
    + destruct s as [|x s']; [reflexivity|]. simpl in *. do 2 f_equal. apply IH; lia.
  - destruct s as [|x s']; [reflexivity|]. simpl in *. f_equal. apply IH; lia.
Qed.

(** The unfolding of [replace_all]. *)
Lemma replace_all_unfold r f s :
  replace_all r f s =
  match match_here r s with
  | Some (rest, c) =>
      if Nat.ltb (List.length rest) (List.length s)
      then f (consumed s rest) c ++ replace_all r f rest
      else f [] c ++ match s with
                     | [] => []
                     | x :: s' => x :: replace_all r f s'
                     end
  | None =>
      match s with
      | [] => []
      | x :: s' => x :: replace_all r f s'
      end
  end.
Proof.
  unfold replace_all at 1. simpl.
  destruct (match_here r s) as [[rest c]|].
  - destruct (Nat.ltb (List.length rest) (List.length s)) eqn:L.
    + apply Nat.ltb_lt in L. f_equal. apply replace_fuel_enough; lia.
    + destruct s; reflexivity.
  - destruct s; reflexivity.
Qed.


(** A replacement that changes the text has found a match in it. *)
Lemma replace_all_changes r f s :
  replace_all r f s <> s ->
  exists pre t rest c, s = pre ++ t /\ match_here r t = Some (rest, c).
Proof.
  induction s as [|x s IH]; intros H; rewrite replace_all_unfold in H.
  - destruct (match_here r []) as [[rest c]|] eqn:E.
    + exists [], [], rest, c. split; [reflexivity | exact E].
    + now contradiction H.
  - destruct (match_here r (x :: s)) as [[rest c]|] eqn:E.
    + exists [], (x :: s), rest, c. split; [reflexivity | exact E].
    + destruct IH as (pre & t & rest & c & -> & M).
      * intros Eq. apply H. now rewrite Eq.
      * exists (x :: pre), t, rest, c. split; [reflexivity | exact M].
Qed.

(* ================================================================== *)
(** * The sanitizer *)
(* ================================================================== *)

(** Replacing every code unit of a class by nothing filters the class
    out. *)
Lemma replace_class_filter p s :
  replace_all (Cls p) (fun _ _ => []) s = filter (fun c => negb (p c)) s.
Proof.
  induction s as [|x s IH]; rewrite replace_all_unfold; [reflexivity|].
  unfold match_here. simpl. destruct (p x); simpl.
  - replace (Nat.ltb (List.length s) (S (List.length s))) with true
      by (symmetry; apply Nat.ltb_lt; lia).
    exact IH.
  - now rewrite IH.
Qed.

Lemma slice_prefix s n :
  (0 <= n)%Z -> String_slice s 0 n = firstn (Z.to_nat n) s.
Proof.
  intros Hn. unfold String_slice, rel_index.
  change (0 <? 0)%Z with false. cbv iota.
  destruct (n <? 0)%Z eqn:E; [apply Z.ltb_lt in E; lia|].
  rewrite (Z.min_l 0) by lia. rewrite Z.sub_0_r. change (Z.to_nat 0) with 0. rewrite skipn_O.
  destruct (Z.le_gt_cases n (Z.of_nat (List.length s))) as [L|L].
  - now rewrite Z.min_l by lia.
  - rewrite Z.min_r by lia. rewrite Nat2Z.id.
    rewrite firstn_all. symmetry. apply firstn_all2. lia.
Qed.

Lemma filter_length_le (A : Type) (q : A -> bool) l :
  List.length (filter q l) <= List.length l.
Proof.
  induction l as [|x l IH]; simpl; [lia|]. destruct (q x); simpl; lia.
Qed.

Lemma filter_twice (A : Type) (q : A -> bool) l : filter q (filter q l) = filter q l.
Proof.
  induction l as [|x l IH]; simpl; [reflexivity|].
  destruct (q x) eqn:E; simpl; [rewrite E, IH|]; auto.
Qed.

Lemma sanitize_filter s n :
  (0 <= n)%Z ->
  sanitizeString s n = filter (fun c => negb (dangerous c)) (firstn (Z.to_nat n) s).
Proof.
  intros Hn. unfold sanitizeString. now rewrite replace_class_filter, slice_prefix.
Qed.

Lemma dangerous_spec c :
  dangerous c = (N.eqb c (cu "<") || N.eqb c (cu ">") || N.eqb c (cu "{") || N.eqb c (cu "}")).
Proof.
  unfold dangerous, one_of. simpl. now rewrite orb_false_r, !orb_assoc.
Qed.

Lemma sanitize_idempotent s n :
  (0 <= n)%Z -> sanitizeString (sanitizeString s n) n = sanitizeString s n.
Proof.
  intros Hn. rewrite !sanitize_filter by exact Hn.
  rewrite firstn_all2.
  - apply filter_twice.
  - etransitivity; [apply filter_length_le|]. rewrite length_firstn. lia.
Qed.

(** C8. For every string and every length bound (a length is not
    negative; the call sites pass 200 and 50), sanitizing a sanitized
    string changes nothing, and the sanitized string is the
    length-limited input without its code units [<], [>], [{] and [}]:
    every other code unit is kept, in place. *)
Theorem C8_sanitize_idempotent_exact (s : jsstring) (n : Z) :
  (0 <= n)%Z ->
  sanitizeString (sanitizeString s n) n = sanitizeString s n /\
  sanitizeString s n =
    filter (fun c => negb (N.eqb c 60 || N.eqb c 62 || N.eqb c 123 || N.eqb c 125))
      (firstn (Z.to_nat n) s).
Proof.
  intros Hn. split; [now apply sanitize_idempotent|].
  rewrite sanitize_filter by exact Hn.
  apply filter_ext. intros c. now rewrite dangerous_spec.
Qed.

Lemma C8_witness :
  (0 <= 5)%Z /\
  sanitizeString (sanitizeString (lit "a<b>{c}d") 5) 5 = sanitizeString (lit "a<b>{c}d") 5 /\
  sanitizeString (lit "a<b>{c}d") 5 =
    filter (fun c => negb (N.eqb c 60 || N.eqb c 62 || N.eqb c 123 || N.eqb c 125))
      (firstn (Z.to_nat 5) (lit "a<b>{c}d")).
Proof.
  split; [lia | apply (C8_sanitize_idempotent_exact (lit "a<b>{c}d") 5); lia].
Defined.

(* ================================================================== *)
(** * The handler *)
(* ================================================================== *)

Lemma str_eqb_eq a b : str_eqb a b = true <-> a = b.
Proof.
  revert b. induction a as [|x a IH]; intros [|y b]; simpl; split; try easy.
  - intros H. apply andb_prop in H as [H1 H2]. apply N.eqb_eq in H1. apply IH in H2.
    now subst.
  - intros H. injection H as -> ->. rewrite N.eqb_refl. simpl. now apply IH.
Qed.

Lemma str_eqb_refl a : str_eqb a a = true.
Proof. now apply str_eqb_eq. Qed.


Lemma serve_validated rt w uid input :
  authenticated w uid -> validated rt w input ->
  serve rt w =
  respond (authorizeAndPlan rt w uid (tripId input) (lookupTrip w uid (tripId input))).
Proof.
  intros (Hm & Hh & Ht & Hu & Ha & Hs & Hg) Hv.
  unfold serve, handle. rewrite Hm, Hh, Ht, Hu, Ha, Hs, Hg. simpl.
  unfold validated in Hv. now rewrite Hv.
Qed.

Lemma serve_reaches rt w uid input data :
  reachesGateway rt w uid input data ->
  serve rt w = respond (finish rt w uid (tripId input) data).
Proof.
  intros (Ha & Hv & Hl & Hk & Hc).
  rewrite (serve_validated rt w uid input Ha Hv), Hl.
  unfold authorizeAndPlan. now rewrite str_eqb_refl, Hk, Hc.
Qed.

(** ** The ownership check *)









(** ** The final write *)

Lemma update_where_no_row tid uid itinerary st t :
  rows_affected tid uid t = 0 -> update_where tid uid itinerary st t = t.
Proof.
  unfold rows_affected, update_where.
  induction t as [|r t IH]; simpl; intros H; [reflexivity|].
  destruct (str_eqb (id r) tid && str_eqb (user_id r) uid); [discriminate|].
  now rewrite IH.
Qed.

(** C7. The claim fails on the code: the handler looks at the error of
    the update only, and an update that matches no row reports none.
    What holds: for every invocation that reaches the final write, an
    error reported by the store is surfaced as the 500 response
    [Failed to update trip: ...]; a write that affects zero rows
    without such an error is not detected: the handler writes nothing
    and answers 200 with the response of the itinerary it produced. *)
Theorem C7_zero_rows_not_detected rt w uid input data itinerary n :
  reachesGateway rt w uid input data ->
  produce rt w data = inr (itinerary, n) ->
  (forall m, update_fault w = Some m ->
     serve rt w =
       {| response :=
            json_response 500
              [(lit "error", JStr (lit "Failed to update trip: " ++ m));
               (lit "success", JBool false)];
          table := meanwhile w (trips w); requests := n |}) /\
  (update_fault w = None ->
   rows_affected (tripId input) uid (meanwhile w (trips w)) = 0 ->
     serve rt w =
       {| response := finalResponse itinerary;
          table := meanwhile w (trips w); requests := n |} /\
     res_status (finalResponse itinerary) = 200%Z).
Proof.
  intros Hr Hp. rewrite (serve_reaches rt w uid input data Hr).
  unfold finish, persist. rewrite Hp. split.
  - intros m ->. reflexivity.
  - intros -> Hz. rewrite update_where_no_row by exact Hz. split; reflexivity.
Qed.

Lemma deleted_reaches :
  reachesGateway sample_runtime deleted_meanwhile_world alice paris_request
    (first_completion deleted_meanwhile_world).
Proof.
  split; [repeat split|]. split; [vm_compute; reflexivity|].
  repeat split; vm_compute; reflexivity.
Qed.

Lemma C7_witness :
  (forall m, update_fault deleted_meanwhile_world = Some m ->
     serve sample_runtime deleted_meanwhile_world =
       {| response :=
            json_response 500
              [(lit "error", JStr (lit "Failed to update trip: " ++ m));
               (lit "success", JBool false)];
          table := meanwhile deleted_meanwhile_world (trips deleted_meanwhile_world);
          requests := 1 |}) /\
  (update_fault deleted_meanwhile_world = None ->
   rows_affected (tripId paris_request) alice
     (meanwhile deleted_meanwhile_world (trips deleted_meanwhile_world)) = 0 ->
     serve sample_runtime deleted_meanwhile_world =
       {| response :=
            finalResponse (JObj [(lit "overview", JStr (lit "Two days in Paris"))]);
          table := meanwhile deleted_meanwhile_world (trips deleted_meanwhile_world);
          requests := 1 |} /\
     res_status (finalResponse (JObj [(lit "overview", JStr (lit "Two days in Paris"))]))
     = 200%Z).
Proof.
  apply (C7_zero_rows_not_detected sample_runtime deleted_meanwhile_world alice
           paris_request (first_completion deleted_meanwhile_world)).
  - apply deleted_reaches.
  - vm_compute. reflexivity.
Defined.

(** The trip is gone when the handler writes: the update affects no
    row, reports no error, and the handler answers 200 with
    [success: true]. *)
Lemma C7_counterexample :
  rows_affected trip1 alice
    (meanwhile deleted_meanwhile_world (trips deleted_meanwhile_world)) = 0 /\
  res_status (response (serve sample_runtime deleted_meanwhile_world)) = 200%Z /\
  res_body (response (serve sample_runtime deleted_meanwhile_world)) =
    Some (JObj [(lit "success", JBool true);
                (lit "itinerary", JObj [(lit "overview", JStr (lit "Two days in Paris"))]);
                (lit "message", JStr (lit "Trip planned successfully with AI!"))]).
Proof. repeat split; vm_compute; reflexivity. Qed.

(** ** The two passes *)


Lemma draft_not_planned : draft <> planned.
Proof. discriminate. Qed.






(** ** The rate-limit payload *)

(** Whatever the metadata of a choice error says, inspecting it has no
    effect: the error thrown for a rate limit is caught with the parse
    errors. *)
Lemma inspectMetadata_ignored rt rawMetadata : inspectMetadata rt rawMetadata = Ok tt.
Proof.
  unfold inspectMetadata, try_catch.
  destruct (ToString rt rawMetadata) as [text|]; simpl; [|reflexivity].
  destruct (JSON_parse rt text) as [parsed|]; simpl; [|reflexivity].
  destruct (read rt (lit "error") parsed) as [err|]; simpl; [|reflexivity].
  match goal with |- context [if ?b then _ else _] => destruct b end; reflexivity.
Qed.

(** C2. The code does not do what the claim says. On the rate-limit
    payload of the gateway (an error in the first choice whose metadata
    reports [RESOURCE_EXHAUSTED] and 429, with the message
    [Provider returned error]) the handler sends no repair request, but
    it answers 200, not 429, and overwrites the itinerary of the trip
    with the error placeholder. *)
Theorem C2_rate_limit_payload_answered_200 :
  (forall rt rawMetadata, inspectMetadata rt rawMetadata = Ok tt) /\
  serve sample_runtime (sample_world alice rate_limit_answers) =
    {| response :=
         json_response 200
           [(lit "success", JBool false);
            (lit "itinerary",
             JObj [(lit "error", JStr invalidFormat); (lit "rawContent", JNull)]);
            (lit "error", JStr invalidFormat);
            (lit "retryable", JBool true)];
       table :=
         [{| id := trip1; user_id := alice;
             ai_itinerary :=
               Some (JObj [(lit "error", JStr invalidFormat); (lit "rawContent", JNull)]);
             status := draft |}];
       requests := 1 |}.
Proof. split; [exact inspectMetadata_ignored | vm_compute; reflexivity]. Qed.

(* ================================================================== *)
(** * The input validator *)
(* ================================================================== *)

Lemma member_object key body v : member key body = Some v -> exists m, body = JObj m.
Proof. destruct body; try discriminate. eauto. Qed.

Lemma validate_object rt m :
  validateTripInput rt (JObj m) =
  (tripIdStr <- checkText rt (JObj m) (lit "tripId") isValidUUID
                  (lit "Invalid or missing tripId") ;;
   dest <- checkDestination (JObj m) ;;
   startStr <- checkText rt (JObj m) (lit "startDate") isValidDateString
                 (lit "Invalid or missing startDate (format: YYYY-MM-DD)") ;;
   endStr <- checkText rt (JObj m) (lit "endDate") isValidDateString
               (lit "Invalid or missing endDate (format: YYYY-MM-DD)") ;;
   _ <- checkDates startStr endStr ;;
   travelers <- checkTravelers rt (JObj m) ;;
   budget <- checkBudget rt (JObj m) ;;
   preferences <- checkPreferences (JObj m) ;;
   Ok {| tripId := tripIdStr;
         destination := sanitizeString dest 200;
         startDate := startStr;
         endDate := endStr;
         travelers := travelers;
         budget := budget;
         preferences := preferences |}).
Proof. reflexivity. Qed.

(** A text that passes its test is let through by [checkText]. *)
Lemma checkText_string rt body key valid message s :
  member key body = Some (JStr s) -> valid s = true -> s <> [] ->
  checkText rt body key valid message = Ok s.
Proof.
  intros Hm Hv Hs. unfold checkText. rewrite Hm.
  destruct s; [contradiction|]. simpl. now rewrite Hv.
Qed.

Lemma checkText_valid rt body key valid message s :
  checkText rt body key valid message = Ok s -> valid s = true.
Proof.
  unfold checkText. destruct (member key body) as [v|]; [|discriminate].
  destruct (negb (truthy (Some v))); [discriminate|].
  destruct (ToString rt v) as [s'|]; simpl; [|discriminate].
  destruct (valid s') eqn:E; simpl; [|discriminate].
  intros H. injection H as <-. exact E.
Qed.

Lemma valid_date_nonempty s : isValidDateString s = true -> s <> [].
Proof. intros H ->. discriminate H. Qed.

Lemma valid_uuid_nonempty s : isValidUUID s = true -> s <> [].
Proof. intros H ->. discriminate H. Qed.

(** ** The date rules *)

Lemma checkDates_eval sd ed ts te :
  Date_getTime sd = Some ts -> Date_getTime ed = Some te ->
  checkDates sd ed =
  if (te <? ts)%Z then Throw (lit "End date must be after start date")
  else if (90 <? ceil_div (te - ts) msPerDay)%Z
       then Throw (lit "Trip duration cannot exceed 90 days")
       else Ok tt.
Proof. intros Hs He. unfold checkDates, durationDays. now rewrite Hs, He. Qed.

(** C3. For every request whose dates are well-formed, validation
    fails when the end date is before the start date, and fails when
    the day span [ceil((end - start) / 86400000)] exceeds 90. The
    boundaries are exact: when the checks before the date rules pass,
    an end before the start is rejected with the message of the first
    rule, a span of more than 90 days with the message of the second,
    and a span of at most 90 days passes both rules, so that the
    outcome is that of the remaining checks. *)
Theorem C3_date_rules rt body sd ed ts te :
  member (lit "startDate") body = Some (JStr sd) ->
  member (lit "endDate") body = Some (JStr ed) ->
  isValidDateString sd = true -> isValidDateString ed = true ->
  Date_getTime sd = Some ts -> Date_getTime ed = Some te ->
  ((te < ts)%Z -> exists m, validateTripInput rt body = Throw m) /\
  ((90 < ceil_div (te - ts) msPerDay)%Z -> exists m, validateTripInput rt body = Throw m) /\
  (forall tid d,
     checkText rt body (lit "tripId") isValidUUID (lit "Invalid or missing tripId") = Ok tid ->
     checkDestination body = Ok d ->
     ((te < ts)%Z ->
      validateTripInput rt body = Throw (lit "End date must be after start date")) /\
     ((ts <= te)%Z -> (90 < ceil_div (te - ts) msPerDay)%Z ->
      validateTripInput rt body = Throw (lit "Trip duration cannot exceed 90 days")) /\
     ((ts <= te)%Z -> (ceil_div (te - ts) msPerDay <= 90)%Z ->
      validateTripInput rt body =
      (travelers <- checkTravelers rt body ;;
       budget <- checkBudget rt body ;;
       preferences <- checkPreferences body ;;
       Ok {| tripId := tid; destination := sanitizeString d 200;
             startDate := sd; endDate := ed;
             travelers := travelers; budget := budget; preferences := preferences |}))).
Proof.
  intros Ms Me Vs Ve Ts Te.
  assert (Dates : forall tid d,
     checkText rt body (lit "tripId") isValidUUID (lit "Invalid or missing tripId") = Ok tid ->
     checkDestination body = Ok d ->
     validateTripInput rt body =
     (_ <- (if (te <? ts)%Z then Throw (lit "End date must be after start date")
            else if (90 <? ceil_div (te - ts) msPerDay)%Z
                 then Throw (lit "Trip duration cannot exceed 90 days")
                 else Ok tt) ;;
      travelers <- checkTravelers rt body ;;
      budget <- checkBudget rt body ;;
      preferences <- checkPreferences body ;;
      Ok {| tripId := tid; destination := sanitizeString d 200;
            startDate := sd; endDate := ed;
            travelers := travelers; budget := budget; preferences := preferences |})).
  { intros tid d Ht Hd. destruct (member_object _ _ _ Ms) as [m ->].
    rewrite validate_object, Ht, Hd. cbn [bind].
    rewrite (checkText_string rt _ _ _ _ sd Ms Vs (valid_date_nonempty sd Vs)). cbn [bind].
    rewrite (checkText_string rt _ _ _ _ ed Me Ve (valid_date_nonempty ed Ve)). cbn [bind].
    now rewrite (checkDates_eval sd ed ts te Ts Te). }
  assert (Fails : (te <? ts)%Z = true \/ (90 <? ceil_div (te - ts) msPerDay)%Z = true ->
                  exists m, validateTripInput rt body = Throw m).
  { intros H.
    destruct (checkText rt body (lit "tripId") isValidUUID (lit "Invalid or missing tripId"))
      as [tid|m1] eqn:Ht.
    - destruct (checkDestination body) as [d|m2] eqn:Hd.
      + rewrite (Dates tid d eq_refl eq_refl).
        destruct (te <? ts)%Z; [cbn [bind]; eauto|].
        destruct H as [H|H]; [discriminate|]. rewrite H. cbn [bind]. eauto.
      + destruct (member_object _ _ _ Ms) as [m ->].
        rewrite validate_object, Ht, Hd. cbn [bind]. eauto.
    - destruct (member_object _ _ _ Ms) as [m ->].
      rewrite validate_object, Ht. cbn [bind]. eauto. }
  split; [|split].
  - intros H. apply Fails. left. now apply Z.ltb_lt.
  - intros H. apply Fails. right. now apply Z.ltb_lt.
  - intros tid d Ht Hd. rewrite (Dates tid d Ht Hd). split; [|split].
    + intros H. apply Z.ltb_lt in H. now rewrite H.
    + intros H1 H2. apply Z.ltb_ge in H1. apply Z.ltb_lt in H2. now rewrite H1, H2.
    + intros H1 H2. apply Z.ltb_ge in H1, H2. now rewrite H1, H2.
Qed.

(** From 2024-01-01 to 2024-03-31 there are exactly 90 days: the
    request passes. *)
Lemma C3_witness :
  Date_getTime (lit "2024-01-01") = Some 1704067200000%Z /\
  Date_getTime (lit "2024-03-31") = Some 1711843200000%Z /\
  ceil_div (1711843200000 - 1704067200000) msPerDay = 90%Z /\
  validateTripInput sample_runtime ninety_days_body =
    Ok {| tripId := trip1; destination := lit "Lisbon";
          startDate := lit "2024-01-01"; endDate := lit "2024-03-31";
          travelers := one; budget := None; preferences := [] |}.
Proof.
  split; [reflexivity|]. split; [reflexivity|]. split; [reflexivity|].
  destruct (C3_date_rules sample_runtime ninety_days_body
              (lit "2024-01-01") (lit "2024-03-31") 1704067200000 1711843200000
              eq_refl eq_refl eq_refl eq_refl eq_refl eq_refl) as (_ & _ & H).
  destruct (H trip1 (lit "Lisbon") eq_refl eq_refl) as (_ & _ & H3).
  rewrite H3.
  - reflexivity.
  - discriminate.
  - discriminate.
Defined.

(** One day more, 91 days, is rejected. *)
Example ninety_one_days_rejected :
  Date_getTime (lit "2024-04-01") = Some (1704067200000 + 91 * msPerDay)%Z /\
  validateTripInput sample_runtime ninety_one_days_body =
    Throw (lit "Trip duration cannot exceed 90 days").
Proof. split; reflexivity. Qed.

(** ** A destination of stripped characters *)

(** C10. There is a request body that the validator accepts and whose
    validated destination is empty: the destination ["<>"] is not empty
    after trimming, consists of stripped characters only, and is
    sanitized after the check. *)
Theorem C10_stripped_destination_accepted :
  forall rt, exists body raw r,
    member (lit "destination") body = Some (JStr raw) /\
    String_trim raw <> [] /\
    Forall (fun c => dangerous c = true) raw /\
    validateTripInput rt body = Ok r /\
    destination r = [].
Proof.
  intros rt.
  exists brackets_body, (lit "<>"),
    {| tripId := trip1; destination := [];
       startDate := lit "2024-06-01"; endDate := lit "2024-06-03";
       travelers := one; budget := None; preferences := [] |}.
  split; [reflexivity|]. split; [discriminate|].
  split; [repeat constructor|]. split; reflexivity.
Qed.

(** ** Validating a validated request *)

Lemma validate_not_object rt body :
  is_object body = false -> validateTripInput rt body = Throw (lit "Invalid request body").
Proof.
  intros H. unfold validateTripInput. rewrite H. simpl negb. now rewrite orb_true_r.
Qed.

Lemma validate_ok_inv rt body r :
  validateTripInput rt body = Ok r ->
  exists m tid d sd ed tr b ps,
    body = JObj m /\
    checkText rt body (lit "tripId") isValidUUID (lit "Invalid or missing tripId") = Ok tid /\
    checkDestination body = Ok d /\
    checkText rt body (lit "startDate") isValidDateString
      (lit "Invalid or missing startDate (format: YYYY-MM-DD)") = Ok sd /\
    checkText rt body (lit "endDate") isValidDateString
      (lit "Invalid or missing endDate (format: YYYY-MM-DD)") = Ok ed /\
    checkDates sd ed = Ok tt /\
    checkTravelers rt body = Ok tr /\
    checkBudget rt body = Ok b /\
    checkPreferences body = Ok ps /\
    r = {| tripId := tid; destination := sanitizeString d 200;
           startDate := sd; endDate := ed;
           travelers := tr; budget := b; preferences := ps |}.
Proof.
  destruct body as [| | | |l|m]; intros H;
    try (rewrite validate_not_object in H by reflexivity); try discriminate H.
  rewrite validate_object in H.
  destruct (checkText rt (JObj m) (lit "tripId") _ _) as [tid|] eqn:E1; [|discriminate].
  cbn [bind] in H.
  destruct (checkDestination (JObj m)) as [d|] eqn:E2; [|discriminate]. cbn [bind] in H.
  destruct (checkText rt (JObj m) (lit "startDate") _ _) as [sd|] eqn:E3; [|discriminate].
  cbn [bind] in H.
  destruct (checkText rt (JObj m) (lit "endDate") _ _) as [ed|] eqn:E4; [|discriminate].
  cbn [bind] in H.
  destruct (checkDates sd ed) as [[]|] eqn:E5; [|discriminate]. cbn [bind] in H.
  destruct (checkTravelers rt (JObj m)) as [tr|] eqn:E6; [|discriminate]. cbn [bind] in H.
  destruct (checkBudget rt (JObj m)) as [b|] eqn:E7; [|discriminate]. cbn [bind] in H.
  destruct (checkPreferences (JObj m)) as [ps|] eqn:E8; [|discriminate]. cbn [bind] in H.
  injection H as <-. exists m, tid, d, sd, ed, tr, b, ps. repeat split; assumption.
Qed.

Lemma checkTravelers_accepts rt body t :
  checkTravelers rt body = Ok t -> travelersRejected t = false.
Proof.
  unfold checkTravelers. destruct (member (lit "travelers") body) as [v|].
  - destruct (ToNumber rt v) as [t'|]; [|discriminate]. cbn [bind].
    destruct (travelersRejected t') eqn:E; [discriminate|].
    intros H. injection H as <-. exact E.
  - intros H. injection H as <-. reflexivity.
Qed.

Lemma checkBudget_accepts rt body b :
  checkBudget rt body = Ok (Some b) -> budgetRejected b = false.
Proof.
  unfold checkBudget.
  assert (G : forall v, (b' <- ToNumber rt v ;;
                         if budgetRejected b'
                         then Throw (lit "Budget must be a positive number")
                         else Ok (Some b')) = Ok (Some b) -> budgetRejected b = false).
  { intros v. destruct (ToNumber rt v) as [b'|]; [|discriminate]. cbn [bind].
    destruct (budgetRejected b') eqn:E; [discriminate|].
    intros H. injection H as <-. exact E. }
  destruct (member (lit "budget") body) as [v|]; [|discriminate].
  destruct v; try discriminate; apply G.
Qed.

Lemma strings_of_length l : List.length (strings_of l) <= List.length l.
Proof.
  induction l as [|v l IH]; simpl; [lia|]. destruct v; simpl; lia.
Qed.

Lemma strings_of_strings ps : strings_of (map JStr ps) = ps.
Proof. induction ps as [|p ps IH]; simpl; [reflexivity | now rewrite IH]. Qed.

Lemma checkPreferences_shape body ps :
  checkPreferences body = Ok ps ->
  exists xs, List.length xs <= 15 /\
             ps = filter nonempty (map (fun p => sanitizeString p 50) xs).
Proof.
  unfold checkPreferences. destruct (member (lit "preferences") body) as [v|].
  - destruct v; try discriminate.
    destruct (Nat.ltb 15 (List.length l)) eqn:E; [discriminate|].
    apply Nat.ltb_ge in E. intros H. injection H as <-.
    exists (strings_of l). split; [|reflexivity].
    pose proof (strings_of_length l). lia.
  - intros H. injection H as <-. exists []. split; [simpl; lia | reflexivity].
Qed.

(** The preferences of a validated request are sanitized, not empty,
    and at most 15. *)
Lemma sanitized_again xs :
  filter nonempty
    (map (fun p => sanitizeString p 50)
       (filter nonempty (map (fun p => sanitizeString p 50) xs)))
  = filter nonempty (map (fun p => sanitizeString p 50) xs).
Proof.
  induction xs as [|x xs IH]; [reflexivity|]. simpl.
  destruct (nonempty (sanitizeString x 50)) eqn:E; simpl.
  - rewrite sanitize_idempotent by lia. rewrite E. now f_equal.
  - exact IH.
Qed.

Lemma preferences_stable body xs :
  List.length xs <= 15 ->
  member (lit "preferences") body =
    Some (JArr (map JStr (filter nonempty (map (fun p => sanitizeString p 50) xs)))) ->
  checkPreferences body = Ok (filter nonempty (map (fun p => sanitizeString p 50) xs)).
Proof.
  intros Hl Hm. unfold checkPreferences. rewrite Hm, length_map.
  replace (Nat.ltb 15 _) with false.
  - rewrite strings_of_strings. f_equal. apply sanitized_again.
  - symmetry. apply Nat.ltb_ge.
    etransitivity; [apply filter_length_le|]. now rewrite length_map.
Qed.

Lemma sanitize_length s n :
  (0 <= n)%Z -> List.length (sanitizeString s n) <= Z.to_nat n.
Proof.
  intros Hn. rewrite sanitize_filter by exact Hn.
  etransitivity; [apply filter_length_le|]. rewrite length_firstn. lia.
Qed.

(** C9. The claim fails on the code: the destination is checked
    before it is sanitized, so the validated destination may be empty or
    blank, and validating it again fails. What holds: for every body
    the validator accepts, if the validated destination is not empty
    after trimming, then validating the validated request succeeds and
    returns it unchanged. *)
Theorem C9_validate_validated rt body r :
  validateTripInput rt body = Ok r ->
  String_trim (destination r) <> [] ->
  validateTripInput rt (toBody r) = Ok r.
Proof.
  intros H Hd.
  destruct (validate_ok_inv rt body r H)
    as (m & tid & d & sd & ed & tr & b & ps & -> & E1 & E2 & E3 & E4 & E5 & E6 & E7 & E8 & ->).
  cbn [destination] in Hd.
  pose proof (checkText_valid _ _ _ _ _ _ E1) as V1.
  pose proof (checkText_valid _ _ _ _ _ _ E3) as V3.
  pose proof (checkText_valid _ _ _ _ _ _ E4) as V4.
  unfold toBody. cbn [tripId destination startDate endDate travelers budget preferences].
  rewrite validate_object.
  set (again := JObj [(lit "tripId", JStr tid);
                      (lit "destination", JStr (sanitizeString d 200));
                      (lit "startDate", JStr sd); (lit "endDate", JStr ed);
                      (lit "travelers", JNum tr);
                      (lit "budget", match b with Some b0 => JNum b0 | None => JNull end);
                      (lit "preferences", JArr (map JStr ps))]).
  assert (M1 : member (lit "tripId") again = Some (JStr tid)) by reflexivity.
  assert (M2 : member (lit "destination") again = Some (JStr (sanitizeString d 200)))
    by reflexivity.
  assert (M3 : member (lit "startDate") again = Some (JStr sd)) by reflexivity.
  assert (M4 : member (lit "endDate") again = Some (JStr ed)) by reflexivity.
  assert (M5 : member (lit "travelers") again = Some (JNum tr)) by reflexivity.
  assert (M6 : member (lit "budget") again
               = Some (match b with Some b0 => JNum b0 | None => JNull end)) by reflexivity.
  assert (M7 : member (lit "preferences") again = Some (JArr (map JStr ps))) by reflexivity.
  clearbody again.
  rewrite (checkText_string rt again _ _ _ tid M1 V1 (valid_uuid_nonempty tid V1)).
  cbn [bind].
  assert (checkDestination again = Ok (sanitizeString d 200)) as ->.
  { unfold checkDestination. rewrite M2.
    pose proof (sanitize_length d 200 ltac:(lia)) as L.
    destruct (sanitizeString d 200) as [|c s]; [now contradiction Hd|].
    cbn [nonempty negb orb].
    destruct (String_trim (c :: s)) as [|c' s']; [now contradiction Hd|].
    cbn [List.length Nat.eqb].
    replace (Nat.ltb 200 (S (List.length s))) with false; [reflexivity|].
    symmetry. apply Nat.ltb_ge. exact L. }
  cbn [bind].
  rewrite (checkText_string rt again _ _ _ sd M3 V3 (valid_date_nonempty sd V3)).
  cbn [bind].
  rewrite (checkText_string rt again _ _ _ ed M4 V4 (valid_date_nonempty ed V4)).
  cbn [bind]. rewrite E5. cbn [bind].
  assert (checkTravelers rt again = Ok tr) as ->.
  { unfold checkTravelers. rewrite M5. cbn [ToNumber bind].
    now rewrite (checkTravelers_accepts rt _ tr E6). }
  cbn [bind].
  assert (checkBudget rt again = Ok b) as ->.
  { unfold checkBudget. rewrite M6. destruct b as [b0|]; [|reflexivity].
    cbn [ToNumber bind]. now rewrite (checkBudget_accepts rt _ b0 E7). }
  cbn [bind].
  destruct (checkPreferences_shape _ ps E8) as (xs & Hx & ->).
  rewrite (preferences_stable again xs Hx M7). cbn [bind].
  now rewrite sanitize_idempotent by lia.
Qed.

Lemma C9_witness :
  validateTripInput sample_runtime paris_body = Ok paris_request /\
  String_trim (destination paris_request) <> [] /\
  validateTripInput sample_runtime (toBody paris_request) = Ok paris_request.
Proof.
  split; [reflexivity|]. split; [discriminate|].
  apply (C9_validate_validated sample_runtime paris_body paris_request);
    [reflexivity | discriminate].
Defined.

(** The body with the destination ["<>"] is accepted, and the request
    it is validated to is rejected. *)
Lemma C9_counterexample :
  validateTripInput sample_runtime brackets_body =
    Ok {| tripId := trip1; destination := [];
          startDate := lit "2024-06-01"; endDate := lit "2024-06-03";
          travelers := one; budget := None; preferences := [] |} /\
  validateTripInput sample_runtime
    (toBody {| tripId := trip1; destination := [];
               startDate := lit "2024-06-01"; endDate := lit "2024-06-03";
               travelers := one; budget := None; preferences := [] |})
  = Throw (lit "Destination is required").
Proof. split; reflexivity. Qed.

(* ================================================================== *)
(** * The normalizer: what a match is *)
(* ================================================================== *)

Lemma matches_Chr a s s' : matches (Chr a) s s' -> s = cu a :: s'.
Proof.
  unfold Chr. intros H. inversion H; subst.
  match goal with E : N.eqb _ _ = true |- _ => apply N.eqb_eq in E; now subst end.
Qed.

Lemma matches_Cls p s s' : matches (Cls p) s s' -> exists x, s = x :: s' /\ p x = true.
Proof. intros H. inversion H; subst. eauto. Qed.

Lemma matches_Star_Cls p s s' :
  matches (Star (Cls p)) s s' -> exists w, s = w ++ s' /\ forallb p w = true.
Proof.
  intros H. remember (Star (Cls p)) as r eqn:R. induction H; try discriminate.
  - exists []. split; reflexivity.
  - injection R as ->. destruct (IHmatches2 eq_refl) as (w & -> & Hw).
    apply matches_Cls in H. destruct H as (x & -> & Px).
    exists (x :: w). split; [reflexivity|]. simpl. now rewrite Px.
Qed.

Lemma matches_Plus_Cls p s s' :
  matches (Plus (Cls p)) s s' ->
  exists w, s = w ++ s' /\ w <> [] /\ forallb p w = true.
Proof.
  unfold Plus. intros H. inversion H; subst.
  match goal with H1 : matches (Cls p) _ _ |- _ =>
    apply matches_Cls in H1; destruct H1 as (x & -> & Px) end.
  match goal with H2 : matches (Star (Cls p)) _ _ |- _ =>
    apply matches_Star_Cls in H2; destruct H2 as (w & -> & Hw) end.
  exists (x :: w). split; [reflexivity|]. split; [discriminate|]. simpl. now rewrite Px.
Qed.

Lemma matches_White s s' : matches White s s' -> exists w, s = w ++ s' /\ blank w.
Proof. apply matches_Star_Cls. Qed.

Lemma matches_Numeral s s' : matches Numeral s s' -> exists a, s = a ++ s' /\ numeral a.
Proof.
  unfold Numeral. intros H. inversion H; subst.
  match goal with H1 : matches (Plus _) _ _ |- _ =>
    apply matches_Plus_Cls in H1; destruct H1 as (i & -> & Hi & Di) end.
  match goal with H2 : matches (Opt _) _ _ |- _ => inversion H2; subst end.
  - exists i. split; [reflexivity|]. now apply numeral_integer.
  - match goal with H3 : matches (Seq _ _) _ _ |- _ => inversion H3; subst end.
    match goal with H4 : matches (Chr _) _ _ |- _ => apply matches_Chr in H4; subst end.
    match goal with H5 : matches (Plus _) _ _ |- _ =>
      apply matches_Plus_Cls in H5; destruct H5 as (f & -> & Hf & Df) end.
    exists (i ++ cu "." :: f). split; [now rewrite <- app_assoc|].
    now apply numeral_fraction.
Qed.

Lemma matches_SeparatorAhead s s' :
  matches SeparatorAhead s s' -> s' = s /\ separator_follows s.
Proof.
  unfold SeparatorAhead. intros H. inversion H; subst. split; [reflexivity|].
  match goal with H1 : matches (Seq _ _) _ _ |- _ => inversion H1; subst end.
  match goal with H2 : matches White _ _ |- _ =>
    apply matches_White in H2; destruct H2 as (w & -> & Hw) end.
  match goal with H3 : matches (Cls _) _ _ |- _ =>
    apply matches_Cls in H3; destruct H3 as (x & -> & Px) end.
  exists w, x, s1. repeat split; assumption.
Qed.

Ltac next_seq :=
  match goal with
  | H : matches (Seq _ _) _ _ |- _ => inversion H; subst; clear H
  | H : matches (Word (_ :: _)) _ _ |- _ => inversion H; subst; clear H
  | H : matches (Word []) _ _ |- _ => inversion H; subst; clear H
  | H : matches Eps _ _ |- _ => inversion H; subst; clear H
  | H : matches (Group _ _) _ _ |- _ => inversion H; subst; clear H
  end.

Ltac name_part :=
  match goal with
  | H : matches (Chr _) _ _ |- _ => apply matches_Chr in H; subst
  | H : matches White _ _ |- _ =>
      apply matches_White in H; let w := fresh "w" in destruct H as (w & -> & ?)
  | H : matches Numeral _ _ |- _ =>
      apply matches_Numeral in H; let a := fresh "a" in destruct H as (a & -> & ?)
  | H : matches SeparatorAhead _ _ |- _ =>
      apply matches_SeparatorAhead in H; destruct H as (-> & ?)
  end.

(** A match of the product pattern has the shape of a product. *)
Lemma product_match_shape t rest :
  matches product t rest -> exists a b, product_shape t a b rest.
Proof.
  unfold product. intros H. repeat next_seq. repeat name_part.
  eexists _, _, _, _, _. split; [reflexivity|]. repeat split; assumption.
Qed.

Lemma forallb_not_in (x : N) w :
  forallb (fun c => negb (N.eqb c x)) w = true -> ~ In x w.
Proof.
  induction w as [|y w IH]; simpl; intros H; [tauto|].
  apply andb_prop in H as [H1 H2]. intros [->|Hin].
  - now rewrite N.eqb_refl in H1.
  - now apply IH.
Qed.

(** A match of the note pattern has the shape of a note. *)
Lemma note_match_shape t rest : matches note t rest -> exists a, note_shape t a rest.
Proof.
  unfold note. intros H. repeat next_seq.
  match goal with H : matches (Star (Cls _)) _ _ |- _ =>
    apply matches_Star_Cls in H; destruct H as (inner & -> & Hin) end.
  repeat name_part. apply forallb_not_in in Hin.
  eexists _, _, _, _. split; [reflexivity|]. repeat split; assumption.
Qed.

(** A match of the trailing-comma pattern is a comma, white space and
    a closing brace or bracket. *)
Lemma trailing_comma_match_shape t rest :
  matches trailingComma t rest -> exists c, trailing_comma_shape t c rest.
Proof.
  unfold trailingComma. intros H. repeat next_seq. repeat name_part.
  match goal with H : matches (Cls _) _ _ |- _ =>
    apply matches_Cls in H; destruct H as (c & -> & Hc) end.
  exists c, w. repeat split; assumption.
Qed.

(** A step that finds no match leaves the text as it is. *)
Lemma replace_all_unchanged r f text :
  (forall pre t rest, text = pre ++ t -> ~ matches r t rest) ->
  replace_all r f text = text.
Proof.
  intros H. destruct (list_eq_dec N.eq_dec (replace_all r f text) text) as [E|E]; [exact E|].
  apply replace_all_changes in E. destruct E as (pre & t & rest & c & -> & M).
  apply match_here_sound in M. now destruct (H pre t rest eq_refl).
Qed.

Lemma rewriteProducts_fires_on_shape text :
  rewriteProducts text <> text -> occurs (fun t => exists a b rest, product_shape t a b rest) text.
Proof.
  intros H. apply replace_all_changes in H. destruct H as (pre & t & rest & c & -> & M).
  apply match_here_sound, product_match_shape in M. destruct M as (a & b & M).
  exists pre, t. split; [reflexivity|]. eauto.
Qed.

Lemma stripNotes_fires_on_shape text :
  stripNotes text <> text -> occurs (fun t => exists a rest, note_shape t a rest) text.
Proof.
  intros H. apply replace_all_changes in H. destruct H as (pre & t & rest & c & -> & M).
  apply match_here_sound, note_match_shape in M. destruct M as (a & M).
  exists pre, t. split; [reflexivity|]. eauto.
Qed.

Lemma removeTrailingCommas_fires_on_shape text :
  removeTrailingCommas text <> text ->
  occurs (fun t => exists c rest, trailing_comma_shape t c rest) text.
Proof.
  intros H. apply replace_all_changes in H. destruct H as (pre & t & rest & c & -> & M).
  apply match_here_sound, trailing_comma_match_shape in M. destruct M as (x & M).
  exists pre, t. split; [reflexivity|]. eauto.
Qed.

Lemma removeControlCharacters_filter text :
  removeControlCharacters text = filter (fun c => negb (is_control c)) text.
Proof. apply replace_class_filter. Qed.

Lemma filter_all (A : Type) (q : A -> bool) l : forallb q l = true -> filter q l = l.
Proof.
  induction l as [|x l IH]; simpl; intros H; [reflexivity|].
  apply andb_prop in H as [H1 H2]. now rewrite H1, IH.
Qed.

Lemma unchanged_without_shape (step : jsstring -> jsstring) shape text :
  (step text <> text -> occurs shape text) -> ~ occurs shape text -> step text = text.
Proof.
  intros H1 H2. destruct (list_eq_dec N.eq_dec (step text) text) as [E|E]; [exact E|].
  now destruct (H2 (H1 E)).
Qed.

(* ================================================================== *)
(** * The normalizer: when a pattern matches *)
(* ================================================================== *)

Lemma exec_Seq r1 r2 s c k :
  exec (Seq r1 r2) s c k = exec r1 s c (fun s1 c1 => exec r2 s1 c1 k).
Proof. reflexivity. Qed.

Lemma exec_Word_cons r l s c k :
  exec (Word (r :: l)) s c k = exec r s c (fun s1 c1 => exec (Word l) s1 c1 k).
Proof. reflexivity. Qed.

Lemma exec_Word_nil s c k : exec (Word []) s c k = k s c.
Proof. reflexivity. Qed.

Lemma exec_Chr a s c k : exec (Chr a) (cu a :: s) c k = k s c.
Proof. unfold Chr. simpl exec. now rewrite N.eqb_refl. Qed.


Lemma ltb_length_cons (x : N) l : Nat.ltb (List.length l) (List.length (x :: l)) = true.
Proof. apply Nat.ltb_lt. simpl. lia. Qed.

Lemma star_loop_S m n s c k :
  star_loop m (S n) s c k =
  match m s c (fun s1 c1 =>
           if Nat.ltb (List.length s1) (List.length s)
           then star_loop m n s1 c1 k else None) with
  | Some res => Some res
  | None => k s c
  end.
Proof. reflexivity. Qed.

Lemma exec_Cls_cons p x s c k : exec (Cls p) (x :: s) c k = if p x then k s c else None.
Proof. reflexivity. Qed.

Lemma exec_Star r s c k : exec (Star r) s c k = star_loop (exec r) (List.length s) s c k.
Proof. reflexivity. Qed.

(** A greedy star over a class takes the whole run when the
    continuation accepts what follows the run. *)
Lemma star_loop_greedy p w : forall n s' c k res,
  forallb p w = true -> stops p s' -> List.length w <= n ->
  k s' c = Some res ->
  star_loop (exec (Cls p)) n (w ++ s') c k = Some res.
Proof.
  induction w as [|x w IH]; intros n s' c k res Hw Hs Hn Hk.
  - destruct n; simpl; [exact Hk|].
    destruct s' as [|y s']; [exact Hk|]. simpl in Hs. now rewrite Hs.
  - destruct n as [|n]; [simpl in Hn; lia|].
    simpl in Hw. apply andb_prop in Hw as [Px Hw].
    cbn [app]. rewrite star_loop_S, exec_Cls_cons, Px, ltb_length_cons.
    rewrite (IH n s' c k res Hw Hs); [reflexivity | simpl in Hn; lia | exact Hk].
Qed.

Lemma exec_Star_greedy p w s' c k res :
  forallb p w = true -> stops p s' -> k s' c = Some res ->
  exec (Star (Cls p)) (w ++ s') c k = Some res.
Proof.
  intros Hw Hs Hk. rewrite exec_Star. apply star_loop_greedy; try assumption.
  rewrite length_app. lia.
Qed.

Lemma exec_Plus_greedy p w s' c k res :
  w <> [] -> forallb p w = true -> stops p s' -> k s' c = Some res ->
  exec (Plus (Cls p)) (w ++ s') c k = Some res.
Proof.
  intros Hn Hw Hs Hk. destruct w as [|x w]; [contradiction|].
  simpl in Hw. apply andb_prop in Hw as [Px Hw].
  unfold Plus. rewrite exec_Seq. cbn [app]. rewrite exec_Cls_cons, Px.
  now apply exec_Star_greedy.
Qed.

(** Some split of a run is accepted when the continuation accepts one;
    the captures are those the star started with. *)
Lemma star_loop_complete p w : forall n s' c k res,
  forallb p w = true -> List.length w <= n -> k s' c = Some res ->
  exists res', star_loop (exec (Cls p)) n (w ++ s') c k = Some res'.
Proof.
  induction w as [|x w IH]; intros n s' c k res Hw Hn Hk.
  - destruct n; simpl; [eauto|].
    match goal with |- context [match ?e with _ => _ end] => destruct e end; eauto.
  - destruct n as [|n]; [simpl in Hn; lia|].
    simpl in Hw. apply andb_prop in Hw as [Px Hw].
    cbn [app]. rewrite star_loop_S, exec_Cls_cons, Px, ltb_length_cons.
    destruct (IH n s' c k res Hw) as [res' ->]; [simpl in Hn; lia | exact Hk |]. eauto.
Qed.

Lemma star_loop_captures p : forall n s c k res,
  star_loop (exec (Cls p)) n s c k = Some res -> exists s1, k s1 c = Some res.
Proof.
  induction n as [|n IH]; intros s c k res H; [simpl in H; eauto|].
  rewrite star_loop_S in H.
  destruct s as [|x s]; [simpl in H; eauto|].
  rewrite exec_Cls_cons in H.
  destruct (p x); [|eauto].
  destruct (Nat.ltb _ _); [|eauto].
  destruct (star_loop (exec (Cls p)) n s c k) as [res'|] eqn:E; [|eauto].
  injection H as <-. now apply IH in E.
Qed.

(** The lookahead for a separator succeeds, and leaves no trace, where
    a separator follows. *)
Lemma exec_SeparatorAhead s c k :
  separator_follows s -> exec SeparatorAhead s c k = k s c.
Proof.
  intros (w & x & rest & -> & Hw & Hx). unfold SeparatorAhead.
  change (exec (Ahead ?r) ?s ?c ?k) with
    (match exec r s c (fun s1 c1 => Some (s1, c1)) with
     | Some (_, c1) => k s c1
     | None => None
     end).
  rewrite exec_Seq. unfold White. rewrite exec_Star.
  match goal with |- match ?e with _ => _ end = _ => destruct e as [[s1 c1]|] eqn:E end.
  - apply star_loop_captures in E. destruct E as (s2 & E).
    destruct s2 as [|y s2]; [discriminate|]. rewrite exec_Cls_cons in E.
    destruct (is_separator y); [|discriminate]. injection E as <- <-. reflexivity.
  - destruct (star_loop_complete is_space w (List.length (w ++ x :: rest)) (x :: rest) c
                (fun s1 c1 => exec (Cls is_separator) s1 c1 (fun s2 c2 => Some (s2, c2)))
                (rest, c) Hw) as [res' E'].
    + rewrite length_app. lia.
    + rewrite exec_Cls_cons. now rewrite Hx.
    + pose proof (eq_trans (eq_sym E) E') as Absurd. discriminate Absurd.
Qed.

Lemma exec_Numeral_greedy a s' c k res :
  numeral a -> stops is_digit s' -> stops (N.eqb (cu ".")) s' ->
  k s' c = Some res ->
  exec Numeral (a ++ s') c k = Some res.
Proof.
  intros Ha Hd Hp Hk. unfold Numeral. rewrite exec_Seq.
  destruct Ha as [d [Hn Hd']|i f [Hi Hi'] [Hf Hf']].
  - apply exec_Plus_greedy; try assumption.
    change (exec (Opt ?r) ?s ?c ?k) with
      (match exec r s c k with Some res0 => Some res0 | None => k s c end).
    rewrite exec_Seq.
    destruct s' as [|x s']; [exact Hk|].
    change (N.eqb (cu ".") x = false) in Hp.
    unfold Chr. rewrite exec_Cls_cons, Hp. exact Hk.
  - rewrite <- app_assoc. apply exec_Plus_greedy; try assumption; [reflexivity|].
    change (exec (Opt ?r) ?s ?c ?k) with
      (match exec r s c k with Some res0 => Some res0 | None => k s c end).
    rewrite exec_Seq. cbn [app]. rewrite exec_Chr.
    now rewrite (exec_Plus_greedy is_digit f s' c k res Hf Hf' Hd Hk).
Qed.

(** ** Classes of code units *)

Lemma digit_cases x :
  is_digit x = true ->
  In x [48; 49; 50; 51; 52; 53; 54; 55; 56; 57]%N.
Proof.
  unfold is_digit, in_range. intros H. apply andb_prop in H as [H1 H2].
  apply N.leb_le in H1, H2. simpl.
  assert (x = 48 \/ x = 49 \/ x = 50 \/ x = 51 \/ x = 52 \/ x = 53 \/ x = 54 \/ x = 55
          \/ x = 56 \/ x = 57)%N as C by lia.
  intuition.
Qed.

Lemma digit_not_space x : is_digit x = true -> is_space x = false.
Proof.
  intros H. apply digit_cases in H. simpl in H.
  repeat (destruct H as [<-|H]; [reflexivity|]). contradiction.
Qed.

Lemma space_not_digit x : is_space x = true -> is_digit x = false.
Proof.
  intros H. destruct (is_digit x) eqn:E; [|reflexivity].
  apply digit_not_space in E. congruence.
Qed.

Lemma space_not_point x : is_space x = true -> N.eqb (cu ".") x = false.
Proof.
  intros H. destruct (N.eqb_spec (cu ".") x) as [<-|]; [discriminate H | reflexivity].
Qed.

Lemma separator_cases x : is_separator x = true -> In x [10; 44; 125; 93]%N.
Proof.
  unfold is_separator, one_of. simpl. intros H.
  repeat (apply orb_prop in H; destruct H as [H|H]);
    try discriminate; apply N.eqb_eq in H; subst; simpl; tauto.
Qed.

Lemma separator_not_digit x : is_separator x = true -> is_digit x = false.
Proof.
  intros H. apply separator_cases in H. simpl in H.
  repeat (destruct H as [<-|H]; [reflexivity|]). contradiction.
Qed.

Lemma separator_not_point x : is_separator x = true -> N.eqb (cu ".") x = false.
Proof.
  intros H. apply separator_cases in H. simpl in H.
  repeat (destruct H as [<-|H]; [reflexivity|]). contradiction.
Qed.

Lemma numeral_head a : numeral a -> exists x a', a = x :: a' /\ is_digit x = true.
Proof.
  intros [d [Hn Hd]|i f [Hn Hd] _].
  - destruct d as [|x d]; [contradiction|].
    simpl in Hd. apply andb_prop in Hd as [Hx _]. eauto.
  - destruct i as [|x i]; [contradiction|].
    simpl in Hd. apply andb_prop in Hd as [Hx _]. exists x, (i ++ cu "." :: f). eauto.
Qed.

Lemma stops_numeral a s : numeral a -> stops is_space (a ++ s).
Proof.
  intros H. destruct (numeral_head a H) as (x & a' & -> & Hx). simpl.
  now apply digit_not_space.
Qed.

(** After white space and a code unit outside [p], when no white space
    is in [p]. *)
Lemma stops_blank p w x s :
  (forall c, is_space c = true -> p c = false) ->
  blank w -> p x = false -> stops p (w ++ x :: s).
Proof.
  intros Hp Hw Hx. destruct w as [|y w]; [exact Hx|].
  simpl. apply Hp. unfold blank in Hw. simpl in Hw. now apply andb_prop in Hw as [? _].
Qed.

Lemma stops_separator p rest :
  (forall c, is_space c = true -> p c = false) ->
  (forall c, is_separator c = true -> p c = false) ->
  separator_follows rest -> stops p rest.
Proof.
  intros Hs Hp (w & c & rest' & -> & Hw & Hc). apply stops_blank; auto.
Qed.

Lemma exec_Group i r s c k :
  exec (Group i r) s c k = exec r s c (fun s1 c1 => k s1 ((i, consumed s s1) :: c1)).
Proof. reflexivity. Qed.

Lemma consumed_app a s : consumed (a ++ s) s = a.
Proof.
  unfold consumed. rewrite length_app, Nat.add_sub. 
  rewrite firstn_app, firstn_all, Nat.sub_diag. simpl. apply app_nil_r.
Qed.

(** ** The product pattern matches a product, with its operands as
    captures *)
Lemma product_fires t a b rest :
  product_shape t a b rest -> match_here product t = Some (rest, [(2, b); (1, a)]).
Proof.
  intros (w1 & w2 & w3 & -> & B1 & B2 & B3 & Na & Nb & Sf).
  unfold match_here, product.
  rewrite exec_Word_cons, exec_Chr, exec_Word_cons. unfold White at 1.
  apply exec_Star_greedy; [exact B1 | now apply stops_numeral |].
  rewrite exec_Word_cons, exec_Group.
  apply exec_Numeral_greedy;
    [exact Na
    | apply stops_blank; [exact space_not_digit | exact B2 | reflexivity]
    | apply stops_blank; [exact space_not_point | exact B2 | reflexivity] |].
  rewrite consumed_app, exec_Word_cons. unfold White at 1.
  apply exec_Star_greedy; [exact B2 | reflexivity |].
  rewrite exec_Word_cons, exec_Chr, exec_Word_cons. unfold White at 1.
  apply exec_Star_greedy; [exact B3 | now apply stops_numeral |].
  rewrite exec_Word_cons, exec_Group.
  apply exec_Numeral_greedy;
    [exact Nb
    | apply stops_separator;
        [exact space_not_digit | exact separator_not_digit | exact Sf]
    | apply stops_separator;
        [exact space_not_point | exact separator_not_point | exact Sf] |].
  rewrite consumed_app, exec_Word_cons, exec_SeparatorAhead by exact Sf.
  reflexivity.
Qed.

(** The note pattern matches a note, with its number as capture. *)
Lemma note_fires t a rest :
  note_shape t a rest -> match_here note t = Some (rest, [(1, a)]).
Proof.
  intros (w1 & w2 & inner & -> & B1 & B2 & Hin & Na & Sf).
  unfold match_here, note.
  rewrite exec_Word_cons, exec_Chr, exec_Word_cons. unfold White at 1.
  apply exec_Star_greedy; [exact B1 | now apply stops_numeral |].
  rewrite exec_Word_cons, exec_Group.
  apply exec_Numeral_greedy;
    [exact Na
    | apply stops_blank; [exact space_not_digit | exact B2 | reflexivity]
    | apply stops_blank; [exact space_not_point | exact B2 | reflexivity] |].
  rewrite consumed_app, exec_Word_cons, exec_Word_cons. unfold White at 1.
  apply exec_Star_greedy; [exact B2 | reflexivity |].
  rewrite exec_Word_cons, exec_Chr, exec_Word_cons.
  apply exec_Star_greedy.
  - clear - Hin. induction inner as [|x inner IH]; [reflexivity|]. simpl.
    destruct (N.eqb x 41) eqn:E.
    + apply N.eqb_eq in E. subst. exfalso. apply Hin. now left.
    + simpl. apply IH. intros H. apply Hin. now right.
  - reflexivity.
  - rewrite exec_Word_cons, exec_Chr, exec_Word_nil.
    rewrite exec_Word_cons, exec_SeparatorAhead by exact Sf. reflexivity.
Qed.

(** ** The steps of the normalizer on a shape *)






Lemma tidy_first_steps text :
  tidy text -> removeControlCharacters (removeTrailingCommas text) = text.
Proof.
  intros [Hc Ht].
  rewrite (unchanged_without_shape removeTrailingCommas _ text
             (removeTrailingCommas_fires_on_shape text) Ht).
  rewrite removeControlCharacters_filter. now apply filter_all.
Qed.



Lemma note_shape_has_paren text :
  occurs (fun t => exists a rest, note_shape t a rest) text -> In (cu "(") text.
Proof.
  intros (pre & t & -> & a & rest & w1 & w2 & inner & -> & _).
  apply in_or_app. right. right. apply in_or_app. right. apply in_or_app. right.
  apply in_or_app. right. now left.
Qed.



(* ================================================================== *)
(** * Normalizing well-formed JSON *)
(* ================================================================== *)

(** The normalizer returns unchanged every text that has no control
    character, no comma before a closing brace or bracket, no colon
    followed by a product and a separator, and no colon followed by a
    number, a parenthetical note and a separator; such a text
    therefore parses to the same value before and after. *)
Lemma normalize_identity rt text :
  forallb (fun c => negb (is_control c)) text = true ->
  ~ occurs (fun t => exists c rest, trailing_comma_shape t c rest) text ->
  ~ occurs (fun t => exists a b rest, product_shape t a b rest) text ->
  ~ occurs (fun t => exists a rest, note_shape t a rest) text ->
  normalizeJsonText text = text /\
  JSON_parse rt (normalizeJsonText text) = JSON_parse rt text.
Proof.
  intros Hc Ht Hp Hn.
  assert (E : normalizeJsonText text = text).
  { unfold normalizeJsonText. rewrite (tidy_first_steps text (conj Hc Ht)).
    rewrite (unchanged_without_shape rewriteProducts _ text
               (rewriteProducts_fires_on_shape text) Hp).
    exact (unchanged_without_shape stripNotes _ text (stripNotes_fires_on_shape text) Hn). }
  split; [exact E | now rewrite E].
Qed.

(** ** Texts without a shape *)

Lemma found_at r pre t res : match_here r t = Some res -> found r (pre ++ t) = true.
Proof.
  intros H. induction pre as [|x pre IH]; cbn [app].
  - destruct t; simpl; now rewrite H.
  - simpl. destruct (match_here r (x :: pre ++ t)); [reflexivity | exact IH].
Qed.

(** The trailing-comma pattern matches a trailing comma, with the
    closing brace or bracket as capture. *)
Lemma trailing_comma_fires t c rest :
  trailing_comma_shape t c rest -> match_here trailingComma t = Some (rest, [(1, [c])]).
Proof.
  intros (w & -> & Hw & Hc). unfold match_here, trailingComma.
  rewrite exec_Word_cons, exec_Chr, exec_Word_cons. unfold White at 1.
  apply exec_Star_greedy; [exact Hw | |].
  - simpl. unfold one_of in Hc. simpl in Hc.
    repeat (apply orb_prop in Hc; destruct Hc as [Hc|Hc]); try discriminate;
      apply N.eqb_eq in Hc; subst; reflexivity.
  - rewrite exec_Word_cons, exec_Group, exec_Cls_cons, Hc, exec_Word_nil.
    change (c :: rest) with ([c] ++ rest). now rewrite consumed_app.
Qed.

Lemma no_trailing_comma text :
  found trailingComma text = false ->
  ~ occurs (fun t => exists c rest, trailing_comma_shape t c rest) text.
Proof.
  intros H (pre & t & -> & c & rest & Sh).
  now rewrite (found_at trailingComma pre t _ (trailing_comma_fires t c rest Sh)) in H.
Qed.

Lemma no_product text :
  found product text = false ->
  ~ occurs (fun t => exists a b rest, product_shape t a b rest) text.
Proof.
  intros H (pre & t & -> & a & b & rest & Sh).
  now rewrite (found_at product pre t _ (product_fires t a b rest Sh)) in H.
Qed.

Lemma no_note text :
  found note text = false ->
  ~ occurs (fun t => exists a rest, note_shape t a rest) text.
Proof.
  intros H (pre & t & -> & a & rest & Sh).
  now rewrite (found_at note pre t _ (note_fires t a rest Sh)) in H.
Qed.

Example normalize_identity_tip :
  normalizeJsonText (qlit "{'cost': 1380, 'tip': 'bring 2 * 3 (six) coins'}")
  = qlit "{'cost': 1380, 'tip': 'bring 2 * 3 (six) coins'}".
Proof.
  apply (normalize_identity sample_runtime
           (qlit "{'cost': 1380, 'tip': 'bring 2 * 3 (six) coins'}")).
  - reflexivity.
  - apply no_trailing_comma. vm_compute. reflexivity.
  - apply no_product. vm_compute. reflexivity.
  - apply no_note. vm_compute. reflexivity.
Qed.

(** Two well-formed texts whose value the normalizer changes: a string
    that holds a comma before a brace, and a string that holds a colon
    and a product before a comma. *)
Lemma C5_counterexample :
  (JSON_parse sample_runtime (qlit "{'a':',}'}") = Ok (JObj [(lit "a", JStr (lit ",}"))]) /\
   JSON_parse sample_runtime (normalizeJsonText (qlit "{'a':',}'}"))
     = Ok (JObj [(lit "a", JStr (lit "}"))]) /\
   JObj [(lit "a", JStr (lit ",}"))] <> JObj [(lit "a", JStr (lit "}"))]) /\
  (JSON_parse sample_runtime (qlit "{'note':'ratio: 2 * 3, ok'}")
     = Ok (JObj [(lit "note", JStr (lit "ratio: 2 * 3, ok"))]) /\
   JSON_parse sample_runtime (normalizeJsonText (qlit "{'note':'ratio: 2 * 3, ok'}"))
     = Ok (JObj [(lit "note", JStr (lit "ratio: 6, ok"))]) /\
   JObj [(lit "note", JStr (lit "ratio: 2 * 3, ok"))]
     <> JObj [(lit "note", JStr (lit "ratio: 6, ok"))]).
Proof.
  split; (split; [vm_compute; reflexivity|]; split; [vm_compute; reflexivity | discriminate]).
Qed.

(* ================================================================== *)
(** * [JSON.parse]: fuel *)
(* ================================================================== *)

Lemma take_while_split p s a b :
  take_while p s = (a, b) -> s = a ++ b /\ forallb p a = true /\ stops p b.
Proof.
  revert a b. induction s as [|x s IH]; intros a b H; simpl in H.
  - injection H as <- <-. repeat split.
  - destruct (p x) eqn:P.
    + destruct (take_while p s) as [a' b'] eqn:E. injection H as <- <-.
      destruct (IH a' b' eq_refl) as (-> & Ha & Hb).
      repeat split; [simpl; now rewrite P | exact Hb].
    + injection H as <- <-. repeat split. exact P.
Qed.

Lemma take_while_app p a b :
  forallb p a = true -> stops p b -> take_while p (a ++ b) = (a, b).
Proof.
  induction a as [|x a IH]; intros Ha Hb.
  - destruct b as [|y b]; [reflexivity|]. simpl in *. now rewrite Hb.
  - simpl in Ha. apply andb_prop in Ha as [Px Ha]. simpl. now rewrite Px, IH.
Qed.

Lemma drop_while_length p s : List.length (drop_while p s) <= List.length s.
Proof.
  induction s as [|x s IH]; simpl; [lia|]. destruct (p x); simpl; lia.
Qed.

Lemma skip_ws_length s : List.length (skip_ws s) <= List.length s.
Proof. apply drop_while_length. Qed.

Lemma parse_chars_eq s acc :
  parse_chars s acc =
  match s with
  | [] => None
  | c :: s1 =>
      if N.eqb c 34 then Some (rev acc, s1)
      else if N.eqb c 92 then
        match s1 with
        | [] => None
        | e :: s2 =>
            if N.eqb e (cu "u") then
              match s2 with
              | h1 :: h2 :: h3 :: h4 :: s3 =>
                  if forallb is_hex [h1; h2; h3; h4]
                  then parse_chars s3
                         (Z.to_N (fold_left (fun a h => (16 * a + digit_of h)%Z)
                                    [h1; h2; h3; h4] 0%Z) :: acc)
                  else None
              | _ => None
              end
            else
              match simple_escape e with
              | Some x => parse_chars s2 (x :: acc)
              | None => None
              end
        end
      else if N.ltb c 32 then None
      else parse_chars s1 (c :: acc)
  end.
Proof. destruct s; reflexivity. Qed.

(** A string literal is at least its closing quote. *)
Lemma parse_chars_shorter : forall n s acc str r,
  List.length s <= n -> parse_chars s acc = Some (str, r) ->
  List.length r < List.length s.
Proof.
  induction n as [|n IH]; intros s acc str r Hn H.
  - destruct s; [discriminate | simpl in Hn; lia].
  - rewrite parse_chars_eq in H.
    destruct s as [|c s1]; [discriminate|]. cbn [List.length] in *.
    destruct (N.eqb c 34); [injection H as <- <-; lia|].
    destruct (N.eqb c 92).
    + destruct s1 as [|e s2]; [discriminate|]. cbn [List.length] in *.
      destruct (N.eqb e (cu "u")).
      * destruct s2 as [|h1 [|h2 [|h3 [|h4 s3]]]]; try discriminate.
        cbn [List.length] in *.
        destruct (forallb is_hex [h1; h2; h3; h4]); [|discriminate].
        apply IH in H; lia.
      * destruct (simple_escape e); [|discriminate].
        apply IH in H; lia.
    + destruct (N.ltb c 32); [discriminate|].
      apply IH in H; lia.
Qed.

Lemma int_part_shorter s ip s1 :
  int_part s = Some (ip, s1) -> List.length s1 < List.length s.
Proof.
  unfold int_part. destruct s as [|c s']; [discriminate|].
  destruct (N.eqb c (cu "0")); [intros H; injection H as <- <-; simpl; lia|].
  destruct (take_while is_digit (c :: s')) as [a b] eqn:E.
  destruct a as [|x a]; [discriminate|]. intros H. injection H as <- <-.
  apply take_while_split in E. destruct E as (E & _). rewrite E.
  rewrite length_app. simpl. lia.
Qed.

Lemma frac_part_shorter s fp s2 :
  frac_part s = Some (fp, s2) -> List.length s2 <= List.length s.
Proof.
  unfold frac_part. destruct s as [|c s']; [intros H; injection H as <- <-; lia|].
  destruct (N.eqb c (cu ".")); [|intros H; injection H as <- <-; lia].
  destruct (take_while is_digit s') as [a b] eqn:E.
  destruct a as [|x a]; [discriminate|]. intros H. injection H as <- <-.
  apply take_while_split in E. destruct E as (E & _). rewrite E.
  simpl. rewrite length_app. simpl. lia.
Qed.

Lemma exp_sign_length s eneg s3 :
  exp_sign s = (eneg, s3) -> List.length s3 <= List.length s.
Proof.
  unfold exp_sign. destruct s as [|d s']; [intros H; injection H as _ <-; lia|].
  destruct (N.eqb d (cu "-")); [intros H; injection H as _ <-; simpl; lia|].
  destruct (N.eqb d (cu "+")); intros H; injection H as _ <-; simpl; lia.
Qed.

Lemma exp_part_shorter s ex s4 :
  exp_part s = Some (ex, s4) -> List.length s4 <= List.length s.
Proof.
  unfold exp_part. destruct s as [|c s']; [intros H; injection H as <- <-; lia|].
  destruct (one_of (lit "eE") c); [|intros H; injection H as <- <-; lia].
  destruct (exp_sign s') as [eneg s3] eqn:Es. apply exp_sign_length in Es.
  destruct (take_while is_digit s3) as [a b] eqn:E.
  destruct a as [|x a]; [discriminate|]. intros H. injection H as _ <-.
  apply take_while_split in E. destruct E as (E & _). rewrite E in Es.
  rewrite length_app in Es. simpl in *. lia.
Qed.

Lemma minus_sign_length s neg s0 :
  minus_sign s = (neg, s0) -> List.length s0 <= List.length s.
Proof.
  unfold minus_sign. destruct s as [|c s']; [intros H; injection H as _ <-; lia|].
  destruct (N.eqb c (cu "-")); intros H; injection H as _ <-; simpl; lia.
Qed.

Lemma parse_number_shorter s v r :
  parse_number s = Some (v, r) -> List.length r < List.length s.
Proof.
  unfold parse_number.
  destruct (minus_sign s) as [neg s0] eqn:E0. apply minus_sign_length in E0.
  destruct (int_part s0) as [[ip s1]|] eqn:E1; [|discriminate].
  destruct (frac_part s1) as [[fp s2]|] eqn:E2; [|discriminate].
  destruct (exp_part s2) as [[ex s4]|] eqn:E3; [|discriminate].
  intros H. injection H as _ <-.
  apply int_part_shorter in E1. apply frac_part_shorter in E2.
  apply exp_part_shorter in E3. lia.
Qed.

Lemma is_prefix_length p s : is_prefix p s = true -> List.length p <= List.length s.
Proof.
  revert s. induction p as [|a p IH]; intros s H; simpl; [lia|].
  destruct s as [|b s]; [discriminate|]. simpl in H.
  apply andb_prop in H as [_ H]. apply IH in H. simpl. lia.
Qed.

Lemma value_of_covers B m1 m2 e1 e2 :
  covers_with _ B m1 m2 -> covers_with _ B e1 e2 ->
  covers (S B) (value_of m1 e1) (value_of m2 e2).
Proof.
  intros Hm He s v r H. unfold value_of in *.
  pose proof (skip_ws_length s) as L.
  destruct (skip_ws s) as [|c s1]; [discriminate|]. cbn [List.length] in L.
  destruct (N.eqb c (cu "{")).
  { pose proof (skip_ws_length s1) as L1.
    destruct (skip_ws s1) as [|d s2]; [discriminate|]. cbn [List.length] in L1.
    destruct (N.eqb d (cu "}")); [injection H as <- <-; split; [lia | reflexivity]|].
    destruct (Hm [] (d :: s2) v r H) as [G1 G2]. cbn [List.length] in G1, G2.
    split; [lia|]. intros Hb. apply G2. lia. }
  destruct (N.eqb c (cu "[")).
  { pose proof (skip_ws_length s1) as L1.
    destruct (skip_ws s1) as [|d s2]; [discriminate|]. cbn [List.length] in L1.
    destruct (N.eqb d (cu "]")); [injection H as <- <-; split; [lia | reflexivity]|].
    destruct (He [] (d :: s2) v r H) as [G1 G2]. cbn [List.length] in G1, G2.
    split; [lia|]. intros Hb. apply G2. lia. }
  destruct (N.eqb c 34).
  { destruct (parse_chars s1 []) as [[str r']|] eqn:E; [|discriminate].
    injection H as <- <-. apply (parse_chars_shorter _ _ _ _ _ (le_n _)) in E.
    split; [lia | reflexivity]. }
  destruct (is_prefix (lit "true") (c :: s1)) eqn:P1.
  { assert (v = JBool true /\ r = skipn 4 (c :: s1)) as [-> ->] by (now injection H).
    apply is_prefix_length in P1. rewrite length_skipn.
    cbn [List.length] in *. simpl in P1. split; [lia | reflexivity]. }
  destruct (is_prefix (lit "false") (c :: s1)) eqn:P2.
  { assert (v = JBool false /\ r = skipn 5 (c :: s1)) as [-> ->] by (now injection H).
    apply is_prefix_length in P2. rewrite length_skipn.
    cbn [List.length] in *. simpl in P2. split; [lia | reflexivity]. }
  destruct (is_prefix (lit "null") (c :: s1)) eqn:P3.
  { assert (v = JNull /\ r = skipn 4 (c :: s1)) as [-> ->] by (now injection H).
    apply is_prefix_length in P3. rewrite length_skipn.
    cbn [List.length] in *. simpl in P3. split; [lia | reflexivity]. }
  pose proof (parse_number_shorter _ _ _ H) as Ln. cbn [List.length] in Ln.
  split; [lia | intros _; exact H].
Qed.

Lemma elements_of_covers B v1 v2 e1 e2 :
  covers B v1 v2 -> covers_with _ B e1 e2 ->
  covers_with _ (S B) (elements_of v1 e1) (elements_of v2 e2).
Proof.
  intros Hv He acc s v r H. unfold elements_of in *.
  destruct (v1 s) as [[x r0]|] eqn:E; [|discriminate].
  destruct (Hv s x r0 E) as [G1 G2].
  pose proof (skip_ws_length r0) as L.
  destruct (skip_ws r0) as [|c r1] eqn:Er; [discriminate|]. cbn [List.length] in L.
  destruct (N.eqb c (cu ",")) eqn:C1.
  - destruct (He (x :: acc) r1 v r H) as [K1 K2].
    split; [lia|]. intros Hb. rewrite G2 by lia. rewrite Er, C1. apply K2. lia.
  - destruct (N.eqb c (cu "]")) eqn:C2; [|discriminate]. injection H as <- <-.
    split; [lia|]. intros Hb. rewrite G2 by lia. now rewrite Er, C1, C2.
Qed.

Lemma members_of_covers B v1 v2 m1 m2 :
  covers B v1 v2 -> covers_with _ B m1 m2 ->
  covers_with _ (S B) (members_of v1 m1) (members_of v2 m2).
Proof.
  intros Hv Hm acc s v r H. unfold members_of in *.
  pose proof (skip_ws_length s) as L.
  destruct (skip_ws s) as [|q s1]; [discriminate|]. cbn [List.length] in L.
  destruct (N.eqb q 34); [|discriminate].
  destruct (parse_chars s1 []) as [[key r0]|] eqn:E; [|discriminate].
  apply (parse_chars_shorter _ _ _ _ _ (le_n _)) in E.
  pose proof (skip_ws_length r0) as L0.
  destruct (skip_ws r0) as [|c r1]; [discriminate|]. cbn [List.length] in L0.
  destruct (N.eqb c (cu ":")); [|discriminate].
  destruct (v1 r1) as [[x r2]|] eqn:Ev; [|discriminate].
  destruct (Hv r1 x r2 Ev) as [G1 G2].
  pose proof (skip_ws_length r2) as L2.
  destruct (skip_ws r2) as [|d r3] eqn:Er; [discriminate|]. cbn [List.length] in L2.
  destruct (N.eqb d (cu ",")) eqn:C1.
  - destruct (Hm ((key, x) :: acc) r3 v r H) as [K1 K2].
    split; [lia|]. intros Hb. rewrite G2 by lia. rewrite Er, C1. apply K2. lia.
  - destruct (N.eqb d (cu "}")) eqn:C2; [|discriminate]. injection H as <- <-.
    split; [lia|]. intros Hb. rewrite G2 by lia. now rewrite Er, C1, C2.
Qed.

Lemma parsers_cover : forall n m,
  covers m (parse_value n) (parse_value m) /\
  covers_with _ m (parse_elements n) (parse_elements m) /\
  covers_with _ m (parse_members n) (parse_members m).
Proof.
  induction n as [|n IH]; intros m.
  - repeat split; discriminate.
  - destruct m as [|m].
    + destruct (IH 0) as (Hv & He & Hm).
      split; [|split].
      * intros s v r H.
        destruct (value_of_covers 0 _ _ _ _ Hm He s v r H) as [G _]. split; [exact G | lia].
      * intros acc s v r H.
        destruct (elements_of_covers 0 _ _ _ _ Hv He acc s v r H) as [G _].
        split; [exact G | lia].
      * intros acc s v r H.
        destruct (members_of_covers 0 _ _ _ _ Hv Hm acc s v r H) as [G _].
        split; [exact G | lia].
    + destruct (IH m) as (Hv & He & Hm).
      split; [|split].
      * exact (value_of_covers m _ _ _ _ Hm He).
      * exact (elements_of_covers m _ _ _ _ Hv He).
      * exact (members_of_covers m _ _ _ _ Hv Hm).
Qed.

(** The fuel of [JSON_parse] is enough: a value that some amount of
    fuel finds is the value of [JSON.parse]. *)
Lemma JSON_parse_fuel rt n text v r :
  parse_value n text = Some (v, r) -> skip_ws r = [] -> JSON_parse rt text = Ok v.
Proof.
  intros H Hr. unfold JSON_parse.
  destruct (parsers_cover n (2 * List.length text + 2)) as (Hv & _).
  destruct (Hv text v r H) as [_ G]. rewrite G by lia. now rewrite Hr.
Qed.

Lemma JSON_parse_inv rt text v :
  JSON_parse rt text = Ok v ->
  exists r, parse_value (2 * List.length text + 2) text = Some (v, r) /\ skip_ws r = [].
Proof.
  unfold JSON_parse.
  destruct (parse_value _ text) as [[v' r]|]; [|discriminate].
  destruct (skip_ws r) eqn:E; [|discriminate]. intros H. injection H as <-. eauto.
Qed.

(* ================================================================== *)
(** * [JSON.parse]: control characters between the tokens *)
(* ================================================================== *)

Lemma strip_app a b : strip (a ++ b) = strip a ++ strip b.
Proof. apply filter_app. Qed.

Lemma strip_printable a : forallb printable a = true -> strip a = a.
Proof. apply filter_all. Qed.

Lemma strip_cons c s : N.leb c 31 = false -> strip (c :: s) = c :: strip s.
Proof. intros H. unfold strip. simpl. now rewrite H. Qed.

Lemma digit_printable c : is_digit c = true -> printable c = true.
Proof.
  intros H. apply digit_cases in H. simpl in H.
  repeat (destruct H as [<-|H]; [reflexivity|]). contradiction.
Qed.

Lemma digits_printable a : forallb is_digit a = true -> forallb printable a = true.
Proof.
  induction a as [|x a IH]; simpl; intros H; [reflexivity|].
  apply andb_prop in H as [Hx Ha]. now rewrite (digit_printable x Hx), IH.
Qed.

Lemma json_space_cases c :
  is_json_space c = true -> c = 32%N \/ N.leb c 31 = true.
Proof.
  unfold is_json_space, one_of. simpl. intros H.
  repeat (apply orb_prop in H; destruct H as [H|H]);
    try discriminate; apply N.eqb_eq in H; subst; auto.
Qed.

Lemma skip_ws_head s c s1 : skip_ws s = c :: s1 -> is_json_space c = false.
Proof.
  unfold skip_ws. induction s as [|x s IH]; simpl; [discriminate|].
  destruct (is_json_space x) eqn:E; [exact IH|].
  intros H. injection H as <- <-. exact E.
Qed.

Lemma skip_ws_fixed c s : is_json_space c = false -> skip_ws (c :: s) = c :: s.
Proof. intros H. unfold skip_ws. simpl. now rewrite H. Qed.

(** The first token of the text is not moved by the removal of the
    control characters. *)
Lemma skip_strip s c s1 :
  skip_ws s = c :: s1 -> N.leb c 31 = false -> skip_ws (strip s) = c :: strip s1.
Proof.
  intros H Hc. pose proof (skip_ws_head s c s1 H) as Hw. revert H.
  unfold skip_ws. induction s as [|x s IH]; simpl; [discriminate|].
  destruct (is_json_space x) eqn:E.
  - intros H. specialize (IH H).
    destruct (json_space_cases x E) as [->|Hx].
    + simpl. exact IH.
    + unfold strip. simpl. rewrite Hx. simpl. exact IH.
  - intros H. injection H as -> ->. unfold strip. simpl. rewrite Hc. simpl.
    now rewrite E.
Qed.

Lemma skip_strip_end s : skip_ws s = [] -> skip_ws (strip s) = [].
Proof.
  unfold skip_ws. induction s as [|x s IH]; simpl; [reflexivity|].
  destruct (is_json_space x) eqn:E; [|discriminate].
  intros H. specialize (IH H).
  destruct (json_space_cases x E) as [->|Hx].
  - simpl. exact IH.
  - unfold strip. simpl. rewrite Hx. simpl. exact IH.
Qed.

Lemma follow_ends_number r : follow r -> ends_number (strip r).
Proof.
  unfold follow. destruct (skip_ws r) as [|c s1] eqn:E.
  - intros _. apply skip_strip_end in E. revert E. unfold skip_ws.
    destruct (strip r) as [|x t]; [repeat split|]. simpl.
    destruct (is_json_space x) eqn:W; [|discriminate]. intros _.
    unfold is_json_space, one_of in W. simpl in W.
    repeat (apply orb_prop in W; destruct W as [W|W]);
      try discriminate; apply N.eqb_eq in W; subst; repeat split.
  - intros Hc.
    assert (Hp : N.leb c 31 = false).
    { unfold one_of in Hc. simpl in Hc.
      repeat (apply orb_prop in Hc; destruct Hc as [Hc|Hc]);
        try discriminate; apply N.eqb_eq in Hc; subst; reflexivity. }
    pose proof (skip_strip r c s1 E Hp) as E'. revert E'. unfold skip_ws.
    assert (Hsep : is_digit c = false /\ N.eqb c (cu ".") = false
                   /\ one_of (lit "eE") c = false).
    { unfold one_of in Hc. simpl in Hc.
      repeat (apply orb_prop in Hc; destruct Hc as [Hc|Hc]);
        try discriminate; apply N.eqb_eq in Hc; subst; repeat split. }
    destruct (strip r) as [|x t]; [repeat split|]. simpl.
    destruct (is_json_space x) eqn:W.
    + intros _. unfold is_json_space, one_of in W. simpl in W.
      repeat (apply orb_prop in W; destruct W as [W|W]);
        try discriminate; apply N.eqb_eq in W; subst; repeat split.
    + intros H. injection H as -> _. exact Hsep.
Qed.

(** ** String literals *)

Lemma hex_printable h : is_hex h = true -> N.leb h 31 = false.
Proof.
  unfold is_hex, is_digit, in_range. intros H.
  destruct (N.leb_spec h 31) as [L|L]; [|reflexivity].
  repeat (apply orb_prop in H; destruct H as [H|H]);
    apply andb_prop in H as [H1 H2]; apply N.leb_le in H1, H2; lia.
Qed.

Lemma escape_printable e x : simple_escape e = Some x -> N.leb e 31 = false.
Proof.
  unfold simple_escape.
  repeat match goal with
         | |- context [N.eqb e ?k] =>
             destruct (N.eqb_spec e k) as [->|]; [reflexivity|]
         end.
  discriminate.
Qed.

Lemma parse_chars_strip : forall n s acc str r,
  List.length s <= n -> parse_chars s acc = Some (str, r) ->
  parse_chars (strip s) acc = Some (str, strip r).
Proof.
  induction n as [|n IH]; intros s acc str r Hn H.
  - destruct s; [discriminate | simpl in Hn; lia].
  - rewrite parse_chars_eq in H.
    destruct s as [|c s1]; [discriminate|]. cbn [List.length] in Hn.
    destruct (N.eqb c 34) eqn:Q.
    { injection H as <- <-. apply N.eqb_eq in Q. subst c.
      rewrite strip_cons by reflexivity. now rewrite parse_chars_eq. }
    destruct (N.eqb c 92) eqn:Bs.
    { apply N.eqb_eq in Bs. subst c. rewrite strip_cons by reflexivity.
      destruct s1 as [|e s2]; [discriminate|]. cbn [List.length] in Hn.
      destruct (N.eqb e (cu "u")) eqn:U.
      - apply N.eqb_eq in U. subst e.
        destruct s2 as [|h1 [|h2 [|h3 [|h4 s3]]]]; try discriminate.
        cbn [List.length] in Hn.
        destruct (forallb is_hex [h1; h2; h3; h4]) eqn:Hx; [|discriminate].
        pose proof Hx as Hx'. simpl in Hx'.
        apply andb_prop in Hx' as [X1 Hx']. apply andb_prop in Hx' as [X2 Hx'].
        apply andb_prop in Hx' as [X3 Hx']. apply andb_prop in Hx' as [X4 _].
        rewrite (strip_cons (cu "u")) by reflexivity.
        rewrite (strip_cons h1), (strip_cons h2), (strip_cons h3), (strip_cons h4)
          by now apply hex_printable.
        rewrite parse_chars_eq. cbn [N.eqb]. change (N.eqb (cu "u") (cu "u")) with true.
        cbv iota. rewrite Hx. apply IH; [lia | exact H].
      - destruct (simple_escape e) as [x|] eqn:Es; [|discriminate].
        rewrite (strip_cons e) by (eapply escape_printable; eassumption).
        rewrite parse_chars_eq. change (N.eqb 92 34) with false.
        change (N.eqb 92 92) with true. cbv iota. rewrite U, Es.
        apply IH; [lia | exact H]. }
    destruct (N.ltb c 32) eqn:Lt; [discriminate|].
    assert (Hc : N.leb c 31 = false).
    { apply N.ltb_ge in Lt. apply N.leb_gt. lia. }
    rewrite strip_cons by exact Hc. rewrite parse_chars_eq, Q, Bs, Lt.
    apply IH; [lia | exact H].
Qed.

(** ** Number literals *)

Lemma int_part_local s ip s1 :
  int_part s = Some (ip, s1) ->
  s = ip ++ s1 /\ forallb is_digit ip = true /\ ip <> [] /\
  forall r, stops is_digit r -> int_part (ip ++ r) = Some (ip, r).
Proof.
  unfold int_part. destruct s as [|c s']; [discriminate|].
  destruct (N.eqb c (cu "0")) eqn:Z0.
  - intros H. injection H as <- <-. apply N.eqb_eq in Z0. subst c.
    split; [reflexivity|]. split; [reflexivity|]. split; [discriminate|].
    intros r _. reflexivity.
  - destruct (take_while is_digit (c :: s')) as [a b] eqn:T.
    destruct a as [|x a]; [discriminate|]. intros H. injection H as <- <-.
    destruct (take_while_split _ _ _ _ T) as (E & Ha & Hb).
    pose proof E as E'. injection E' as Ex _. subst x.
    split; [exact E|]. split; [exact Ha|]. split; [discriminate|].
    intros r Hr. change ((c :: a) ++ r) with (c :: a ++ r). cbv beta iota.
    rewrite Z0. change (c :: a ++ r) with ((c :: a) ++ r).
    now rewrite (take_while_app is_digit (c :: a) r Ha Hr).
Qed.

Lemma frac_part_none r :
  stops (fun c => N.eqb c (cu ".")) r -> frac_part r = Some ([], r).
Proof. destruct r as [|x r]; simpl; [reflexivity|]. now intros ->. Qed.

Lemma frac_part_local s fp s2 :
  frac_part s = Some (fp, s2) ->
  exists t, s = t ++ s2 /\ forallb printable t = true /\
    headed (fun c => N.eqb c (cu ".")) t /\
    forall r, stops is_digit r -> stops (fun c => N.eqb c (cu ".")) r ->
      frac_part (t ++ r) = Some (fp, r).
Proof.
  unfold frac_part. destruct s as [|c s'].
  - intros H. injection H as <- <-. exists []. repeat split.
    intros r _. apply frac_part_none.
  - destruct (N.eqb c (cu ".")) eqn:P.
    + destruct (take_while is_digit s') as [a b] eqn:T.
      destruct a as [|x a]; [discriminate|]. intros H. injection H as <- <-.
      destruct (take_while_split _ _ _ _ T) as (E & Ha & Hb).
      apply N.eqb_eq in P. subst c s'.
      exists (cu "." :: x :: a). repeat split.
      * change (forallb printable (cu "." :: x :: a))
          with (true && forallb printable (x :: a)).
        now rewrite (digits_printable _ Ha).
      * intros r Hr _. change ((cu "." :: x :: a) ++ r) with (cu "." :: (x :: a) ++ r).
        change (N.eqb (cu ".") (cu ".")) with true. cbv beta iota.
        now rewrite (take_while_app is_digit (x :: a) r Ha Hr).
    + intros H. injection H as <- <-. exists []. repeat split.
      intros r _. apply frac_part_none.
Qed.

Lemma exp_part_none r :
  stops (one_of (lit "eE")) r -> exp_part r = Some (0%Z, r).
Proof. destruct r as [|x r]; [reflexivity|]. unfold exp_part. now intros ->. Qed.

Lemma exp_sign_local s eneg s3 :
  exp_sign s = (eneg, s3) ->
  exists t, s = t ++ s3 /\ forallb printable t = true /\
    forall x r, is_digit x = true -> exp_sign (t ++ x :: r) = (eneg, x :: r).
Proof.
  unfold exp_sign. destruct s as [|d s'].
  - intros H. injection H as <- <-. exists []. repeat split.
    intros x r Hx. simpl. apply digit_cases in Hx. simpl in Hx.
    repeat (destruct Hx as [<-|Hx]; [reflexivity|]). contradiction.
  - destruct (N.eqb d (cu "-")) eqn:M.
    + intros H. injection H as <- <-. apply N.eqb_eq in M. subst d.
      exists [cu "-"]. repeat split.
    + destruct (N.eqb d (cu "+")) eqn:P.
      * intros H. injection H as <- <-. apply N.eqb_eq in P. subst d.
        exists [cu "+"]. repeat split.
      * intros H. injection H as <- <-. exists []. repeat split.
        intros x r Hx. simpl. apply digit_cases in Hx. simpl in Hx.
        repeat (destruct Hx as [<-|Hx]; [reflexivity|]). contradiction.
Qed.

Lemma exp_part_local s ex s4 :
  exp_part s = Some (ex, s4) ->
  exists t, s = t ++ s4 /\ forallb printable t = true /\
    headed (one_of (lit "eE")) t /\
    forall r, stops is_digit r -> stops (one_of (lit "eE")) r ->
      exp_part (t ++ r) = Some (ex, r).
Proof.
  unfold exp_part. destruct s as [|c s'].
  - intros H. injection H as <- <-. exists []. repeat split.
    intros r _. apply exp_part_none.
  - destruct (one_of (lit "eE") c) eqn:P.
    + destruct (exp_sign s') as [eneg s3] eqn:Sg.
      destruct (take_while is_digit s3) as [a b] eqn:T.
      destruct a as [|x a]; [discriminate|]. intros H. injection H as <- <-.
      destruct (take_while_split _ _ _ _ T) as (E & Ha & Hb).
      destruct (exp_sign_local _ _ _ Sg) as (ts & Es & Ps & Rs).
      assert (Pc : printable c = true).
      { unfold one_of in P. simpl in P.
        repeat (apply orb_prop in P; destruct P as [P|P]);
          try discriminate; apply N.eqb_eq in P; subst; reflexivity. }
      assert (Hx : is_digit x = true) by (simpl in Ha; now apply andb_prop in Ha).
      exists (c :: ts ++ x :: a). subst s' s3. repeat split.
      * simpl. now rewrite <- app_assoc.
      * change (forallb printable (c :: ts ++ x :: a))
          with (printable c && forallb printable (ts ++ x :: a)).
        rewrite Pc, forallb_app, Ps. now rewrite (digits_printable _ Ha).
      * exact P.
      * intros r Hr _.
        change ((c :: ts ++ x :: a) ++ r) with (c :: (ts ++ x :: a) ++ r).
        cbv beta iota. rewrite P. rewrite <- app_assoc.
        change ((x :: a) ++ r) with (x :: a ++ r). rewrite (Rs x (a ++ r) Hx).
        change (x :: a ++ r) with ((x :: a) ++ r).
        now rewrite (take_while_app is_digit (x :: a) r Ha Hr).
    + intros H. injection H as <- <-. exists []. repeat split.
      intros r _. apply exp_part_none.
Qed.

Lemma minus_sign_local s neg s0 :
  minus_sign s = (neg, s0) ->
  exists t, s = t ++ s0 /\ (t = [] \/ t = [cu "-"]) /\
    forall x r, is_digit x = true -> minus_sign (t ++ x :: r) = (neg, x :: r).
Proof.
  unfold minus_sign. destruct s as [|c s'].
  - intros H. injection H as <- <-. exists []. repeat split; [now left|].
    intros x r Hx. simpl. apply digit_cases in Hx. simpl in Hx.
    repeat (destruct Hx as [<-|Hx]; [reflexivity|]). contradiction.
  - destruct (N.eqb c (cu "-")) eqn:M.
    + intros H. injection H as <- <-. apply N.eqb_eq in M. subst c.
      exists [cu "-"]. repeat split. now right.
    + intros H. injection H as <- <-. exists []. repeat split; [now left|].
      intros x r Hx. simpl. apply digit_cases in Hx. simpl in Hx.
      repeat (destruct Hx as [<-|Hx]; [reflexivity|]). contradiction.
Qed.

Lemma exp_mark_cases c :
  one_of (lit "eE") c = true ->
  is_digit c = false /\ N.eqb c (cu ".") = false.
Proof.
  unfold one_of. simpl. intros P.
  repeat (apply orb_prop in P; destruct P as [P|P]);
    try discriminate; apply N.eqb_eq in P; subst; split; reflexivity.
Qed.

(** A number literal is its printable text, and is read the same in
    front of anything that does not continue a number. *)
Lemma parse_number_local s v r :
  parse_number s = Some (v, r) ->
  exists t, s = t ++ r /\ forallb printable t = true /\
    (exists c t', t = c :: t' /\ (c = cu "-" \/ is_digit c = true)) /\
    forall r', ends_number r' -> parse_number (t ++ r') = Some (v, r').
Proof.
  unfold parse_number.
  destruct (minus_sign s) as [neg s0] eqn:M.
  destruct (int_part s0) as [[ip s1]|] eqn:I; [|discriminate].
  destruct (frac_part s1) as [[fp s2]|] eqn:F; [|discriminate].
  destruct (exp_part s2) as [[ex s4]|] eqn:X; [|discriminate].
  intros H. injection H as <- <-.
  destruct (minus_sign_local _ _ _ M) as (tm & Em & Cm & Rm).
  destruct (int_part_local _ _ _ I) as (Ei & Di & Ni & Ri).
  destruct (frac_part_local _ _ _ F) as (tf & Ef & Pf & Hf & Rf).
  destruct (exp_part_local _ _ _ X) as (te & Ee & Pe & He & Re).
  destruct ip as [|x ip']; [now elim Ni|].
  assert (Hx : is_digit x = true) by (simpl in Di; now apply andb_prop in Di).
  exists (tm ++ (x :: ip') ++ tf ++ te). subst s s0 s1 s2. repeat split.
  - now rewrite <- !app_assoc.
  - rewrite !forallb_app, (digits_printable _ Di), Pf, Pe.
    destruct Cm as [->| ->]; reflexivity.
  - destruct Cm as [->| ->]; simpl; eauto.
  - intros r' (R1 & R2 & R3).
    assert (S2 : stops is_digit (te ++ r') /\ stops (fun c => N.eqb c (cu ".")) (te ++ r')).
    { destruct te as [|y te]; [now split|]. simpl in He. simpl.
      exact (exp_mark_cases y He). }
    assert (S1 : stops is_digit (tf ++ te ++ r')).
    { destruct tf as [|y tf]; [apply S2|]. simpl in Hf. simpl.
      apply N.eqb_eq in Hf. subst y. reflexivity. }
    rewrite <- !app_assoc.
    change ((x :: ip') ++ tf ++ te ++ r') with (x :: ip' ++ tf ++ te ++ r').
    rewrite (Rm x _ Hx).
    change (x :: ip' ++ tf ++ te ++ r') with ((x :: ip') ++ tf ++ te ++ r').
    rewrite (Ri _ S1). destruct S2 as [S2 S3]. rewrite (Rf _ S2 S3).
    now rewrite (Re _ R1 R3).
Qed.

Lemma parse_number_strip s v r :
  parse_number s = Some (v, r) -> follow r ->
  parse_number (strip s) = Some (v, strip r).
Proof.
  intros H Hr. destruct (parse_number_local _ _ _ H) as (t & -> & Pt & _ & Rt).
  rewrite strip_app, (strip_printable _ Pt).
  apply Rt, follow_ends_number, Hr.
Qed.

Lemma parse_number_head s v r :
  parse_number s = Some (v, r) ->
  exists c s1, s = c :: s1 /\ N.leb c 31 = false /\
    N.eqb 116 c = false /\ N.eqb 102 c = false /\ N.eqb 110 c = false.
Proof.
  intros H. destruct (parse_number_local _ _ _ H) as (t & -> & _ & (c & t' & -> & Hc) & _).
  exists c, (t' ++ r). split; [reflexivity|].
  destruct Hc as [->|Hc]; [repeat split|].
  apply digit_cases in Hc. simpl in Hc.
  repeat (destruct Hc as [<-|Hc]; [repeat split|]). contradiction.
Qed.

(** ** Values, arrays and objects *)

Lemma is_prefix_split p s : is_prefix p s = true -> s = p ++ skipn (List.length p) s.
Proof.
  revert s. induction p as [|a p IH]; intros s H; [reflexivity|].
  destruct s as [|b s]; [discriminate|]. simpl in H.
  apply andb_prop in H as [E H]. apply N.eqb_eq in E. subst b.
  simpl. f_equal. now apply IH.
Qed.

Lemma is_prefix_app p r : is_prefix p (p ++ r) = true.
Proof. induction p as [|a p IH]; [reflexivity|]. simpl. now rewrite N.eqb_refl. Qed.

Lemma skipn_app_length (p r : jsstring) : skipn (List.length p) (p ++ r) = r.
Proof. induction p as [|a p IH]; [reflexivity|]. exact IH. Qed.

Lemma is_prefix_miss a p c s : N.eqb a c = false -> is_prefix (a :: p) (c :: s) = false.
Proof. simpl. now intros ->. Qed.

Lemma not_true c s : N.eqb 116 c = false -> is_prefix (lit "true") (c :: s) = false.
Proof. exact (is_prefix_miss _ _ c s). Qed.

Lemma not_false c s : N.eqb 102 c = false -> is_prefix (lit "false") (c :: s) = false.
Proof. exact (is_prefix_miss _ _ c s). Qed.

Lemma not_null c s : N.eqb 110 c = false -> is_prefix (lit "null") (c :: s) = false.
Proof. exact (is_prefix_miss _ _ c s). Qed.

Lemma is_prefix_head a p c s : is_prefix (a :: p) (c :: s) = true -> c = a.
Proof. simpl. intros H. apply andb_prop in H as [E _]. apply N.eqb_eq in E. now subst. Qed.

(** A literal name is read the same once the control characters
    behind it are gone. *)
Lemma literal_strip p s :
  forallb printable p = true -> is_prefix p s = true ->
  is_prefix p (strip s) = true /\
  skipn (List.length p) (strip s) = strip (skipn (List.length p) s).
Proof.
  intros Hp H. apply is_prefix_split in H.
  set (r := skipn (List.length p) s) in *. clearbody r. subst s.
  rewrite strip_app, (strip_printable _ Hp). split.
  - apply is_prefix_app.
  - apply skipn_app_length.
Qed.

Lemma follow_at r c r1 :
  skip_ws r = c :: r1 -> one_of (lit ",]}") c = true -> follow r.
Proof. intros E H. unfold follow. now rewrite E. Qed.

Lemma value_of_head m e s v r :
  value_of m e s = Some (v, r) ->
  exists c s1, skip_ws s = c :: s1 /\ N.leb c 31 = false.
Proof.
  unfold value_of. destruct (skip_ws s) as [|c s1]; [discriminate|].
  intros H. exists c, s1. split; [reflexivity|].
  destruct (N.eqb_spec c (cu "{")) as [->|_]; [reflexivity|].
  destruct (N.eqb_spec c (cu "[")) as [->|_]; [reflexivity|].
  destruct (N.eqb_spec c 34) as [->|_]; [reflexivity|].
  destruct (is_prefix (lit "true") (c :: s1)) eqn:T.
  { apply is_prefix_head in T. now subst c. }
  destruct (is_prefix (lit "false") (c :: s1)) eqn:F.
  { apply is_prefix_head in F. now subst c. }
  destruct (is_prefix (lit "null") (c :: s1)) eqn:Nl.
  { apply is_prefix_head in Nl. now subst c. }
  destruct (parse_number_head _ _ _ H) as (c' & s' & E & Hc & _).
  injection E as -> ->. exact Hc.
Qed.

Lemma value_of_robust m e :
  robust_with _ m -> robust_with _ e -> robust (value_of m e).
Proof.
  intros Hm He s v r H. split; [eapply value_of_head; eassumption|].
  destruct (value_of_head _ _ _ _ _ H) as (c & s1 & E & Hc).
  intros Hr. unfold value_of in *. rewrite E in H. rewrite (skip_strip _ _ _ E Hc).
  destruct (N.eqb c (cu "{")) eqn:B1.
  { destruct (skip_ws s1) as [|d s2] eqn:E2; [discriminate|].
    pose proof (skip_ws_head _ _ _ E2) as Wd.
    destruct (N.eqb d (cu "}")) eqn:D.
    - injection H as <- <-. apply N.eqb_eq in D. subst d.
      now rewrite (skip_strip _ _ _ E2 eq_refl).
    - destruct (Hm [] _ _ _ H) as [(c' & s' & E' & Hc') G].
      rewrite (skip_ws_fixed _ _ Wd) in E'. injection E' as <- <-.
      rewrite (skip_strip _ _ _ E2 Hc'), D, <- (strip_cons d s2 Hc'). exact (G Hr). }
  destruct (N.eqb c (cu "[")) eqn:B2.
  { destruct (skip_ws s1) as [|d s2] eqn:E2; [discriminate|].
    pose proof (skip_ws_head _ _ _ E2) as Wd.
    destruct (N.eqb d (cu "]")) eqn:D.
    - injection H as <- <-. apply N.eqb_eq in D. subst d.
      now rewrite (skip_strip _ _ _ E2 eq_refl).
    - destruct (He [] _ _ _ H) as [(c' & s' & E' & Hc') G].
      rewrite (skip_ws_fixed _ _ Wd) in E'. injection E' as <- <-.
      rewrite (skip_strip _ _ _ E2 Hc'), D, <- (strip_cons d s2 Hc'). exact (G Hr). }
  destruct (N.eqb c 34) eqn:B3.
  { destruct (parse_chars s1 []) as [[str r0]|] eqn:P; [|discriminate].
    injection H as <- <-.
    now rewrite (parse_chars_strip _ _ _ _ _ (le_n _) P). }
  rewrite <- (strip_cons c s1 Hc).
  destruct (is_prefix (lit "true") (c :: s1)) eqn:T.
  { assert (v = JBool true /\ r = skipn 4 (c :: s1)) as [-> ->] by (now injection H).
    destruct (literal_strip (lit "true") _ eq_refl T) as [-> K].
    exact (f_equal (fun x => Some (JBool true, x)) K). }
  destruct (is_prefix (lit "false") (c :: s1)) eqn:F.
  { assert (v = JBool false /\ r = skipn 5 (c :: s1)) as [-> ->] by (now injection H).
    destruct (literal_strip (lit "false") _ eq_refl F) as [K1 K].
    rewrite K1. pose proof (is_prefix_head _ _ _ _ F) as ->.
    rewrite (strip_cons _ s1 Hc) in *. rewrite not_true by reflexivity.
    exact (f_equal (fun x => Some (JBool false, x)) K). }
  destruct (is_prefix (lit "null") (c :: s1)) eqn:Nl.
  { assert (v = JNull /\ r = skipn 4 (c :: s1)) as [-> ->] by (now injection H).
    destruct (literal_strip (lit "null") _ eq_refl Nl) as [K1 K].
    rewrite K1. pose proof (is_prefix_head _ _ _ _ Nl) as ->.
    rewrite (strip_cons _ s1 Hc) in *.
    rewrite not_true, not_false by reflexivity.
    exact (f_equal (fun x => Some (JNull, x)) K). }
  destruct (parse_number_head _ _ _ H) as (c' & s' & E' & _ & N1 & N2 & N3).
  injection E' as <- <-.
  rewrite (parse_number_strip _ _ _ H Hr), (strip_cons c s1 Hc).
  now rewrite not_true, not_false, not_null by assumption.
Qed.

Lemma elements_of_robust v e :
  robust v -> robust_with _ e -> robust_with _ (elements_of v e).
Proof.
  intros Hv He acc s val r H. cbv beta in *. unfold elements_of in *.
  destruct (v s) as [[x r0]|] eqn:Ev; [|discriminate].
  destruct (Hv _ _ _ Ev) as [Hd G]. split; [exact Hd|]. intros Hr.
  destruct (skip_ws r0) as [|c r1] eqn:E0; [discriminate|].
  destruct (N.eqb c (cu ",")) eqn:C1.
  - apply N.eqb_eq in C1. subst c.
    rewrite (G (follow_at _ _ _ E0 eq_refl)), (skip_strip _ _ _ E0 eq_refl).
    change (N.eqb (cu ",") (cu ",")) with true. cbv iota.
    destruct (He _ _ _ _ H) as [_ K]. exact (K Hr).
  - destruct (N.eqb c (cu "]")) eqn:C2; [|discriminate]. injection H as <- <-.
    apply N.eqb_eq in C2. subst c.
    now rewrite (G (follow_at _ _ _ E0 eq_refl)), (skip_strip _ _ _ E0 eq_refl).
Qed.

Lemma members_of_robust v m :
  robust v -> robust_with _ m -> robust_with _ (members_of v m).
Proof.
  intros Hv Hm acc s val r H. cbv beta in *. unfold members_of in *.
  destruct (skip_ws s) as [|q s1] eqn:E; [discriminate|].
  destruct (N.eqb q 34) eqn:Q; [|discriminate]. apply N.eqb_eq in Q. subst q.
  split; [now exists 34%N, s1|]. intros Hr.
  rewrite (skip_strip _ _ _ E eq_refl). change (N.eqb 34 34) with true. cbv iota.
  destruct (parse_chars s1 []) as [[key r0]|] eqn:P; [|discriminate].
  rewrite (parse_chars_strip _ _ _ _ _ (le_n _) P).
  destruct (skip_ws r0) as [|c r1] eqn:E0; [discriminate|].
  destruct (N.eqb c (cu ":")) eqn:C; [|discriminate]. apply N.eqb_eq in C. subst c.
  rewrite (skip_strip _ _ _ E0 eq_refl). change (N.eqb (cu ":") (cu ":")) with true.
  cbv iota.
  destruct (v r1) as [[x r2]|] eqn:Ev; [|discriminate].
  destruct (Hv _ _ _ Ev) as [_ G].
  destruct (skip_ws r2) as [|d r3] eqn:E2; [discriminate|].
  destruct (N.eqb d (cu ",")) eqn:C1.
  - apply N.eqb_eq in C1. subst d.
    rewrite (G (follow_at _ _ _ E2 eq_refl)), (skip_strip _ _ _ E2 eq_refl).
    change (N.eqb (cu ",") (cu ",")) with true. cbv iota.
    destruct (Hm _ _ _ _ H) as [_ K]. exact (K Hr).
  - destruct (N.eqb d (cu "}")) eqn:C2; [|discriminate]. injection H as <- <-.
    apply N.eqb_eq in C2. subst d.
    now rewrite (G (follow_at _ _ _ E2 eq_refl)), (skip_strip _ _ _ E2 eq_refl).
Qed.

Lemma parsers_robust : forall n,
  robust (parse_value n) /\
  robust_with _ (parse_elements n) /\
  robust_with _ (parse_members n).
Proof.
  induction n as [|n (Hv & He & Hm)].
  - repeat split; discriminate.
  - split; [|split].
    + exact (value_of_robust _ _ Hm He).
    + exact (elements_of_robust _ _ Hv He).
    + exact (members_of_robust _ _ Hv Hm).
Qed.

(** Taking the control characters out of a text that [JSON.parse]
    accepts does not change the value it yields. *)
Lemma JSON_parse_strip rt text v :
  JSON_parse rt text = Ok v -> JSON_parse rt (strip text) = Ok v.
Proof.
  intros H. destruct (JSON_parse_inv _ _ _ H) as (r & P & E).
  destruct (parsers_robust (2 * List.length text + 2)) as (Hv & _ & _).
  destruct (Hv _ _ _ P) as [_ G].
  apply (JSON_parse_fuel rt (2 * List.length text + 2) _ _ (strip r)).
  - apply G. unfold follow. now rewrite E.
  - now apply skip_strip_end.
Qed.

(* ================================================================== *)
(** * Normalizing well-formed JSON: the parsed value *)
(* ================================================================== *)

Lemma strip_control text :
  forallb (fun c => negb (N.eqb c 127)) text = true ->
  removeControlCharacters text = strip text.
Proof.
  intros H. rewrite removeControlCharacters_filter. unfold strip.
  induction text as [|x text IH]; [reflexivity|]. simpl in H.
  apply andb_prop in H as [Hx H]. simpl. unfold is_control at 1.
  apply negb_true_iff in Hx. rewrite Hx, orb_false_r, (IH H). reflexivity.
Qed.

(** C5. The claim fails on the code: the patterns are matched in the
    whole text, also inside string literals, and the delete character
    is removed from string literals. What holds: when a text is
    well-formed JSON with value [v], has no delete character and no
    comma before a closing brace or bracket, and, once its control
    characters are taken out, has no colon followed by a product and
    a separator and no colon followed by a number, a parenthetical
    note and a separator, the normalized text parses to [v] as well. *)
Theorem C5_normalize_preserves_value rt text v :
  JSON_parse rt text = Ok v ->
  forallb (fun c => negb (N.eqb c 127)) text = true ->
  ~ occurs (fun t => exists c rest, trailing_comma_shape t c rest) text ->
  ~ occurs (fun t => exists a b rest, product_shape t a b rest) (strip text) ->
  ~ occurs (fun t => exists a rest, note_shape t a rest) (strip text) ->
  JSON_parse rt (normalizeJsonText text) = Ok v.
Proof.
  intros Hv Hd Ht Hp Hn. unfold normalizeJsonText.
  rewrite (unchanged_without_shape removeTrailingCommas _ text
             (removeTrailingCommas_fires_on_shape text) Ht).
  rewrite (strip_control text Hd).
  rewrite (unchanged_without_shape rewriteProducts _ (strip text)
             (rewriteProducts_fires_on_shape (strip text)) Hp).
  rewrite (unchanged_without_shape stripNotes _ (strip text)
             (stripNotes_fires_on_shape (strip text)) Hn).
  exact (JSON_parse_strip rt text v Hv).
Qed.

Lemma C5_witness :
  JSON_parse sample_runtime (normalizeJsonText multiline_text)
  = Ok (JObj [(lit "cost", JNum 1380); (lit "days", JArr [JNum 1; JNum 25; JBool true; JNull]);
              (lit "tip", JStr (lit "bring 2 * 3 (six) coins")); (lit "nights", JNum 3)]).
Proof.
  apply (C5_normalize_preserves_value sample_runtime multiline_text).
  - vm_compute. reflexivity.
  - reflexivity.
  - apply no_trailing_comma. vm_compute. reflexivity.
  - apply no_product. vm_compute. reflexivity.
  - apply no_note. vm_compute. reflexivity.
Defined.

(** The delete character is legal inside a string literal, and the
    normalizer removes it. *)
Example normalize_drops_delete :
  JSON_parse sample_runtime (qlit "{'a':'" ++ [127%N] ++ qlit "'}")
    = Ok (JObj [(lit "a", JStr [127%N])]) /\
  JSON_parse sample_runtime (normalizeJsonText (qlit "{'a':'" ++ [127%N] ++ qlit "'}"))
    = Ok (JObj [(lit "a", JStr [])]).
Proof. split; vm_compute; reflexivity. Qed.
